(** * The repository selector of corsaiflow

    A shallow embedding of [DataRepositoryTool._run]
    (src/corsaiflow/tools/data_repository_tool.py) together with the default
    catalog of [DataRoutingCrew.repositories]
    (src/corsaiflow/crews/data_routing_crew/data_routing_crew.py), and the
    properties of the keyword scorer stated in the specification.

    Python values are modelled as follows.
    - [str]: a [string] whose characters are code points below 256, so that
      [str.lower], [str.split] and the [in] operator are modelled exactly on
      that range.
    - [Dict[str, str]] (a repository descriptor): a [gmap string string];
      [d.get(k, dflt)] is [get_or d k dflt], [d.get(k)] is [d !! k] and
      [d[k]] raises [KeyError] when the key is absent.
    - [int] scores: [nat] (scores only ever grow from 0).
    - the returned text: the value that is rendered, see [outcome]. *)

From Stdlib Require Import String Ascii List Arith Lia Bool Permutation.
From stdpp Require Import base option list strings gmap sorting.

Local Open Scope string_scope.
Local Open Scope list_scope.
Local Open Scope nat_scope.

(** ** Python string operations *)

Module PyStr.

(** [c.isspace()] for a code point below 256: TAB, LF, VT, FF, CR, the four
    separators FS, GS, RS, US, the space, NEL and the no-break space. *)
Definition isspace (c : ascii) : bool :=
  let n := nat_of_ascii c in
  (((9 <=? n) && (n <=? 13)) || ((28 <=? n) && (n <=? 32))
   || (n =? 133) || (n =? 160))%nat.

(** [c.lower()] for a code point below 256: the letters A-Z and the
    accented capitals U+00C0..U+00DE, the multiplication sign U+00D7
    excepted, move 32 places up; everything else is unchanged. *)
Definition lower_char (c : ascii) : ascii :=
  let n := nat_of_ascii c in
  if (((65 <=? n) && (n <=? 90))
      || ((192 <=? n) && (n <=? 222) && negb (n =? 215)))%nat
  then ascii_of_nat (n + 32) else c.

(** [s.lower()] *)
Fixpoint lower (s : string) : string :=
  match s with
  | EmptyString => EmptyString
  | String c s' => String (lower_char c) (lower s')
  end.

(** [s.startswith(p)] *)
Fixpoint startswith (p s : string) : bool :=
  match p, s with
  | EmptyString, _ => true
  | String _ _, EmptyString => false
  | String a p', String b s' => Ascii.eqb a b && startswith p' s'
  end.

(** [needle in hay]: [needle] occurs as a contiguous substring of [hay]. *)
Fixpoint contains (needle hay : string) : bool :=
  startswith needle hay
  || match hay with
     | EmptyString => false
     | String _ hay' => contains needle hay'
     end.

(** The scanning loop of [s.split()]: [cur] is the token being read. *)
Fixpoint split_from (cur s : string) : list string :=
  match s with
  | EmptyString => if String.eqb cur EmptyString then [] else [cur]
  | String c s' =>
      if isspace c
      then (if String.eqb cur EmptyString then split_from EmptyString s'
            else cur :: split_from EmptyString s')
      else split_from (cur ++ String c EmptyString) s'
  end.

(** [s.split()]: the maximal runs of non-whitespace characters, in order;
    no token is empty. *)
Definition split (s : string) : list string := split_from EmptyString s.

End PyStr.

(** ** Python results: a value or a raised exception *)

Inductive exn : Type :=
  | KeyError (key : string)
  | IndexError.

Inductive py (A : Type) : Type :=
  | Ok (a : A)
  | Raise (e : exn).
Arguments Ok {A} a.
Arguments Raise {A} e.

Definition py_bind {A B} (m : py A) (k : A -> py B) : py B :=
  match m with
  | Ok a => k a
  | Raise e => Raise e
  end.

(** [d[key]] *)
Definition getitem (d : gmap string string) (key : string) : py string :=
  match d !! key with
  | Some v => Ok v
  | None => Raise (KeyError key)
  end.

(** [d.get(key, dflt)] *)
Definition get_or (d : gmap string string) (key dflt : string) : string :=
  default dflt (d !! key).

(** ** The selector *)

Module DataRepositoryTool.

Import PyStr.

(** A repository descriptor is a Python dict from strings to strings; the
    selector reads the keys "name", "description", "tool_name" and
    "tool_type", any of which may be absent. *)
Abbreviation repo := (gmap string string).

(** The trigger words of the four tool types (lines 93-99). *)
Definition search_words : list string := ["search"; "find"; "look for"].
Definition analyst_words : list string :=
  ["analyze"; "analysis"; "insight"; "report"].
Definition sql_words : list string := ["query"; "select"; "table"; "database"].
Definition agent_words : list string := ["agent"; "assistant"; "help"].

(** [any(keyword in text for keyword in query_lower.split())] *)
Definition any_keyword_in (query_lower text : string) : bool :=
  existsb (fun keyword => contains keyword text) (split query_lower).

(** [any(word in query_lower for word in words)] *)
Definition any_word_in (words : list string) (query_lower : string) : bool :=
  existsb (fun word => contains word query_lower) words.

(** The body of the loop over the repositories, lines 80-100: the score of
    one descriptor, with [score += k] written as the successive values
    [score0], [score1], [score2] and the result. *)
Definition score_of (query_lower : string) (r : repo) : nat :=
  let score0 := 0 in
  let repo_desc := lower (get_or r "description" EmptyString) in
  let repo_name := lower (get_or r "name" EmptyString) in
  let score1 :=
    if any_keyword_in query_lower repo_desc then score0 + 2 else score0 in
  let score2 :=
    if any_keyword_in query_lower repo_name then score1 + 1 else score1 in
  let tool_type := lower (get_or r "tool_type" EmptyString) in
  if String.eqb tool_type "search" && any_word_in search_words query_lower
  then score2 + 2
  else if String.eqb tool_type "analyst"
          && any_word_in analyst_words query_lower
  then score2 + 2
  else if String.eqb tool_type "sql" && any_word_in sql_words query_lower
  then score2 + 2
  else if String.eqb tool_type "agent" && any_word_in agent_words query_lower
  then score2 + 2
  else score2.

(** An element of [recommendations] (lines 103-109).  The four text fields
    come from [repo.get(key)] and are [None] when the key is absent. *)
Record recommendation := {
  rec_repository : option string;
  rec_tool_name : option string;
  rec_tool_type : option string;
  rec_description : option string;
  rec_score : nat
}.

Definition mk_recommendation (r : repo) (score : nat) : recommendation :=
  {| rec_repository := r !! "name";
     rec_tool_name := r !! "tool_name";
     rec_tool_type := r !! "tool_type";
     rec_description := r !! "description";
     rec_score := score |}.

(** The loop of lines 78-109: the descriptors that score above zero, in
    catalog order. *)
Fixpoint recommendations (query_lower : string) (repositories : list repo)
  : list recommendation :=
  match repositories with
  | [] => []
  | r :: rest =>
      let score := score_of query_lower r in
      if 0 <? score
      then mk_recommendation r score :: recommendations query_lower rest
      else recommendations query_lower rest
  end.

(** [recommendations.sort(key=lambda x: x["score"], reverse=True)].
    Python's sort is stable, also with [reverse=True]: entries with equal
    scores keep their relative order.  The stable sort by decreasing score
    is written as an insertion sort; [sort_by_score_unique] below shows that
    every sort that is stable returns this very list. *)
Fixpoint insert_by_score (x : recommendation) (l : list recommendation)
  : list recommendation :=
  match l with
  | [] => [x]
  | y :: l' =>
      if rec_score y <=? rec_score x then x :: y :: l'
      else y :: insert_by_score x l'
  end.

Fixpoint sort_by_score (l : list recommendation) : list recommendation :=
  match l with
  | [] => []
  | x :: l' => insert_by_score x (sort_by_score l')
  end.

(** An element of [result["alternative_repositories"]] (lines 131-135). *)
Record alternative := {
  alt_repository : option string;
  alt_tool_name : option string;
  alt_score : nat
}.

Definition mk_alternative (r : recommendation) : alternative :=
  {| alt_repository := rec_repository r;
     alt_tool_name := rec_tool_name r;
     alt_score := rec_score r |}.

(** The dict [result] (lines 121-137); the key "alternative_repositories"
    is present when the field is [Some]. *)
Record result := {
  recommended_repository : option string;
  tool_name : option string;
  tool_type : option string;
  description : option string;
  confidence : string;
  alternative_repositories : option (list alternative)
}.

(** [recommendations[0]] *)
Definition item0 {A} (l : list A) : py A :=
  match l with
  | [] => Raise IndexError
  | x :: _ => Ok x
  end.

(** [recommendations[1:3]] *)
Definition slice_1_3 {A} (l : list A) : list A := firstn 2 (skipn 1 l).

(** What [_run] returns.  The three values stand for the three texts the
    method produces: the fixed sentence of lines 70-73, the f-string of
    lines 112-115 built from [user_query] and the list of names, and
    [json.dumps(result, indent=2)]. *)
Inductive outcome :=
  | NoRepositoriesConfigured
  | NoMatchFound (user_query : string) (names : list string)
  | Recommendation (res : result).

(** [[r['name'] for r in self.repositories]]: raises [KeyError] at the
    first descriptor without a name. *)
Fixpoint names_of (repositories : list repo) : py (list string) :=
  match repositories with
  | [] => Ok []
  | r :: rest =>
      py_bind (getitem r "name") (fun n =>
      py_bind (names_of rest) (fun ns => Ok (n :: ns)))
  end.

(** [DataRepositoryTool._run].  The argument [repositories] is the value of
    [self.repositories] that the method reads; how the attribute receives
    its value (the assignment of line 57 goes through the base class of the
    framework) is not part of the embedding. *)
Definition _run (repositories : list repo) (user_query : string)
  : py outcome :=
  match repositories with
  | [] => Ok NoRepositoriesConfigured
  | _ :: _ =>
      let query_lower := lower user_query in
      let recs := recommendations query_lower repositories in
      match recs with
      | [] =>
          py_bind (names_of repositories) (fun names =>
          Ok (NoMatchFound user_query names))
      | _ :: _ =>
          let sorted := sort_by_score recs in
          py_bind (item0 sorted) (fun top_rec =>
          Ok (Recommendation
            {| recommended_repository := rec_repository top_rec;
               tool_name := rec_tool_name top_rec;
               tool_type := rec_tool_type top_rec;
               description := rec_description top_rec;
               confidence :=
                 if 3 <=? rec_score top_rec then "high" else "medium";
               alternative_repositories :=
                 if 1 <? length sorted
                 then Some (map mk_alternative (slice_1_3 sorted))
                 else None |}))
      end
  end.

End DataRepositoryTool.

(** ** The default catalog *)

Module DataRoutingCrew.

Import DataRepositoryTool.

(** [DataRoutingCrew.repositories] *)
Definition repositories : list repo :=
  [ {[ "name" := "Product Search";
       "description" :=
         "Search service for product information, inventory, and catalog data";
       "tool_name" := "product-search";
       "tool_type" := "search" ]};
    {[ "name" := "Revenue Analytics";
       "description" :=
         "Semantic view for revenue analysis, sales data, and financial metrics";
       "tool_name" := "revenue-semantic-view";
       "tool_type" := "analyst" ]};
    {[ "name" := "SQL Database";
       "description" := "Direct SQL access to database tables and views";
       "tool_name" := "sql_exec_tool";
       "tool_type" := "sql" ]};
    {[ "name" := "Cortex Agent";
       "description" := "AI agent for complex data queries and analysis";
       "tool_name" := "agent_1";
       "tool_type" := "agent" ]} ].

End DataRoutingCrew.

(** ** Notions used to state the properties *)

Module Props.

Import PyStr DataRepositoryTool.

(** The three contributions to a score, each on its own. *)
Definition desc_points (query_lower : string) (r : repo) : nat :=
  if any_keyword_in query_lower (lower (get_or r "description" EmptyString))
  then 2 else 0.

Definition name_points (query_lower : string) (r : repo) : nat :=
  if any_keyword_in query_lower (lower (get_or r "name" EmptyString)) then 1 else 0.

(** The condition of one branch of the chain of lines 93-99, for the tag
    [tag] with trigger words [words], on the lowercased [tool_type]. *)
Definition bonus_fires (tag : string) (words : list string)
    (tool_type query_lower : string) : bool :=
  String.eqb tool_type tag && any_word_in words query_lower.

Definition search_fires := bonus_fires "search" search_words.
Definition analyst_fires := bonus_fires "analyst" analyst_words.
Definition sql_fires := bonus_fires "sql" sql_words.
Definition agent_fires := bonus_fires "agent" agent_words.

(** How many of the four conditions hold. *)
Definition bonuses_awarded (tool_type query_lower : string) : nat :=
  Nat.b2n (search_fires tool_type query_lower)
  + Nat.b2n (analyst_fires tool_type query_lower)
  + Nat.b2n (sql_fires tool_type query_lower)
  + Nat.b2n (agent_fires tool_type query_lower).

(** The points the chain adds, as a function of the lowercased tag and the
    lowercased query alone. *)
Definition type_bonus (tool_type query_lower : string) : nat :=
  2 * bonuses_awarded tool_type query_lower.

(** The four tags with their trigger words. *)
Definition type_rules : list (string * list string) :=
  [ ("search", search_words); ("analyst", analyst_words);
    ("sql", sql_words); ("agent", agent_words) ].

(** The ranking [_run] works with: [recommendations] after the sort. *)
Definition ranking (repositories : list repo) (user_query : string)
  : list recommendation :=
  sort_by_score (recommendations (lower user_query) repositories).

(** The score of the top entry of the ranking, if there is one. *)
Definition top_score (repositories : list repo) (user_query : string)
  : option nat :=
  rec_score <$> head (ranking repositories user_query).

(** The order [>=] on scores, lifted to the entries. *)
Definition by_score_desc (a b : recommendation) : Prop :=
  rec_score b <= rec_score a.

(** The number of descriptors of [l] that score more than [s], and that
    score exactly [s]. *)
Definition count_above (query_lower : string) (s : nat) (l : list repo) : nat :=
  length (filter (fun r => s < score_of query_lower r) l).

Definition count_tied (query_lower : string) (s : nat) (l : list repo) : nat :=
  length (filter (fun r => score_of query_lower r = s) l).

(** What a result shows of an entry, and the entries a result shows, in the
    order it shows them: the recommendation, then the alternatives. *)
Definition shown_of (r : recommendation) : option string * option string :=
  (rec_repository r, rec_tool_name r).

Definition alternatives (res : result) : list alternative :=
  default [] (alternative_repositories res).

Definition output_ranking (res : result)
  : list (option string * option string) :=
  (recommended_repository res, tool_name res)
  :: map (fun a => (alt_repository a, alt_tool_name a)) (alternatives res).

(** The result built from a ranking [top :: rest] (lines 119-137). *)
Definition result_of (top : recommendation) (rest : list recommendation)
  : result :=
  {| recommended_repository := rec_repository top;
     tool_name := rec_tool_name top;
     tool_type := rec_tool_type top;
     description := rec_description top;
     confidence := if 3 <=? rec_score top then "high" else "medium";
     alternative_repositories :=
       match rest with
       | [] => None
       | _ :: _ => Some (mk_alternative <$> take 2 rest)
       end |}.

(** A descriptor built from the fields that are present. *)
Definition put (key : string) (v : option string) (r : repo) : repo :=
  match v with
  | Some s => <[key := s]> r
  | None => r
  end.

Definition descriptor (name description tool_name tool_type : option string)
  : repo :=
  put "name" name (put "description" description
    (put "tool_name" tool_name (put "tool_type" tool_type ∅))).

(** The two descriptors of the scenarios, with any [tool_name] or none;
    [product_search_bare] is the first of them without its description. *)
Definition product_search (tool_name : option string) : repo :=
  descriptor (Some "Product Search")
    (Some "Search service for product information, inventory, and catalog data")
    tool_name (Some "search").

Definition product_search_bare (tool_name : option string) : repo :=
  descriptor (Some "Product Search") None tool_name (Some "search").

Definition revenue_analytics (tool_name : option string) : repo :=
  descriptor (Some "Revenue Analytics")
    (Some "Semantic view for revenue analysis, sales data, and financial metrics")
    tool_name (Some "analyst").

(** A descriptor with a name and a description only. *)
Definition plain (name : string) : repo :=
  descriptor (Some name) (Some "Shared data") None None.

End Props.

(** ** The flow state and its first step *)

Module Main.

(** [DataQueryState]: four text fields, each empty by default. *)
Record DataQueryState := {
  user_query : string;
  selected_repository : string;
  tool_name : string;
  query_result : string
}.

Definition initial_state : DataQueryState :=
  {| user_query := EmptyString; selected_repository := EmptyString;
     tool_name := EmptyString; query_result := EmptyString |}.

(** [self.state.user_query = q] *)
Definition set_user_query (state : DataQueryState) (q : string)
  : DataQueryState :=
  {| user_query := q;
     selected_repository := selected_repository state;
     tool_name := tool_name state;
     query_result := query_result state |}.

(** The query used when no payload is given (line 31). *)
Definition default_query : string :=
  "What products are available in our inventory?".

(** [DataQueryFlow.receive_query].  The payload is [None] or a dict, here
    with text values as the keyword arguments of [kickoff] have them; the
    test [if crewai_trigger_payload:] fails for [None] and for the empty
    dict.  The two [print] calls are left out. *)
Definition receive_query (crewai_trigger_payload : option (gmap string string))
    (state : DataQueryState) : DataQueryState :=
  match crewai_trigger_payload with
  | Some payload =>
      if bool_decide (payload = ∅)
      then set_user_query state default_query
      else set_user_query state (get_or payload "user_query" EmptyString)
  | None => set_user_query state default_query
  end.

End Main.

(** ** Further notions used to state properties *)

Module Notions.

Import PyStr DataRepositoryTool Props.

(** A text made of whitespace only (the empty text included). *)
Definition blank (s : string) : bool :=
  forallb isspace (list_ascii_of_string s).

(** How many of the three scoring rules (description, name, type) add
    points to a descriptor. *)
Definition rules_fired (query_lower : string) (r : repo) : nat :=
  Nat.b2n (0 <? desc_points query_lower r)
  + Nat.b2n (0 <? name_points query_lower r)
  + Nat.b2n (0 <? type_bonus (lower (get_or r "tool_type" EmptyString))
                    query_lower).

(** The keys [_run] reads, and the three of them the score reads. *)
Definition read_keys : list string :=
  ["name"; "description"; "tool_name"; "tool_type"].

Definition scored_keys : list string := ["name"; "description"; "tool_type"].

(** Two descriptors with the same values, or the same absence, at the four
    keys read. *)
Definition same_fields (r1 r2 : repo) : Prop :=
  Forall (fun key => r1 !! key = r2 !! key) read_keys.

(** Two descriptors whose name, description and type are the same up to
    letter case, an absent key counting as the empty text. *)
Definition same_lowered (r1 r2 : repo) : Prop :=
  Forall (fun key => lower (get_or r1 key EmptyString)
                     = lower (get_or r2 key EmptyString)) scored_keys.

(** All the trigger words of lines 93-99. *)
Definition trigger_words : list string :=
  search_words ++ analyst_words ++ sql_words ++ agent_words.

(** The four tags of lines 93-99. *)
Definition known_tags : list string := ["search"; "analyst"; "sql"; "agent"].

(** Some token of the lowercased query occurs in [text] as a contiguous
    substring, on its own or inside a longer word. *)
Definition token_inside (query_lower text : string) : Prop :=
  exists token pre post,
    In token (split query_lower) /\ token <> EmptyString
    /\ text = (pre ++ token ++ post)%string.

(** The outcome is a recommendation. *)
Definition recommends (o : py outcome) : Prop :=
  exists res, o = Ok (Recommendation res).

End Notions.

Import PyStr DataRepositoryTool Props.

(** * Properties *)

(** ** Strings *)

Lemma lower_char_idemp (c : ascii) : lower_char (lower_char c) = lower_char c.
Proof. destruct c as [[] [] [] [] [] [] [] []]; reflexivity. Qed.

Lemma lower_idemp (s : string) : lower (lower s) = lower s.
Proof.
  induction s as [|c s IH]; simpl; [reflexivity|].
  by rewrite lower_char_idemp, IH.
Qed.

(** No token of [split] is empty. *)
Lemma split_from_nonempty (s cur : string) :
  Forall (λ t, t ≠ EmptyString) (split_from cur s).
Proof.
  revert cur. induction s as [|c s IH]; intros cur; simpl.
  - destruct (String.eqb_spec cur EmptyString); by repeat constructor.
  - destruct (isspace c); [|apply IH].
    destruct (String.eqb_spec cur EmptyString); [apply IH|].
    constructor; [done|apply IH].
Qed.

Lemma split_nonempty (s : string) : Forall (λ t, t ≠ EmptyString) (split s).
Proof. apply split_from_nonempty. Qed.

(** The empty query has no token, so it matches no text. *)
Lemma any_keyword_in_empty (text : string) :
  any_keyword_in EmptyString text = false.
Proof. reflexivity. Qed.

Example split_example :
  split (lower "Can you  search our product catalog? ")
  = ["can"; "you"; "search"; "our"; "product"; "catalog?"].
Proof. reflexivity. Qed.

Example contains_example :
  contains "sql" "mysql" = true ∧ contains "look for" "please look for it" = true
  ∧ contains "inventory?" "inventory, and" = false.
Proof. done. Qed.

(** ** The score of one descriptor *)

(** Case analysis on a lowercased tag against the four known tags. *)
Ltac tag_cases ty :=
  destruct (String.eqb_spec ty "search") as [->|];
  [ simpl; lia | ];
  destruct (String.eqb_spec ty "analyst") as [->|];
  [ simpl; lia | ];
  destruct (String.eqb_spec ty "sql") as [->|];
  [ simpl; lia | ];
  destruct (String.eqb_spec ty "agent") as [->|];
  simpl; lia.

Section Score.

Variables (query_lower : string) (r : repo).

Lemma fires_exclusive (ty : string) :
  bonuses_awarded ty query_lower <= 1.
Proof.
  unfold bonuses_awarded, search_fires, analyst_fires, sql_fires, agent_fires,
    bonus_fires.
  destruct (any_word_in search_words query_lower),
    (any_word_in analyst_words query_lower),
    (any_word_in sql_words query_lower),
    (any_word_in agent_words query_lower);
  tag_cases ty.
Qed.

Lemma score_of_split :
  score_of query_lower r
  = desc_points query_lower r + name_points query_lower r
    + type_bonus (lower (get_or r "tool_type" EmptyString)) query_lower.
Proof.
  unfold score_of, desc_points, name_points, type_bonus, bonuses_awarded,
    search_fires, analyst_fires, sql_fires, agent_fires, bonus_fires.
  generalize (lower (get_or r "tool_type" EmptyString)); intros ty.
  destruct (any_keyword_in query_lower (lower (get_or r "description" EmptyString))),
    (any_keyword_in query_lower (lower (get_or r "name" EmptyString)));
  destruct (any_word_in search_words query_lower),
    (any_word_in analyst_words query_lower),
    (any_word_in sql_words query_lower),
    (any_word_in agent_words query_lower);
  tag_cases ty.
Qed.

Lemma desc_points_le : desc_points query_lower r <= 2.
Proof. unfold desc_points. case_match; lia. Qed.

Lemma name_points_le : name_points query_lower r <= 1.
Proof. unfold name_points. case_match; lia. Qed.

Lemma score_of_le : score_of query_lower r <= 5.
Proof.
  rewrite score_of_split. unfold type_bonus.
  pose proof (fires_exclusive (lower (get_or r "tool_type" EmptyString))).
  pose proof desc_points_le. pose proof name_points_le. lia.
Qed.

End Score.

(** ** The sort *)

Section Sort.

Implicit Types (x y : recommendation) (l : list recommendation) (s : nat).

Lemma insert_by_score_perm x l : insert_by_score x l ≡ₚ x :: l.
Proof.
  induction l as [|y l IH]; simpl; [done|].
  destruct (rec_score y <=? rec_score x); [done|].
  by rewrite IH, Permutation_swap.
Qed.

Lemma sort_by_score_perm l : sort_by_score l ≡ₚ l.
Proof.
  induction l as [|x l IH]; simpl; [done|].
  by rewrite insert_by_score_perm, IH.
Qed.

Lemma sort_by_score_length l : length (sort_by_score l) = length l.
Proof. by rewrite sort_by_score_perm. Qed.

Lemma sort_by_score_nil l : sort_by_score l = [] ↔ l = [].
Proof.
  split; [|by intros ->].
  intros H. apply Permutation_nil_r. by rewrite <- H, sort_by_score_perm.
Qed.

Global Instance by_score_desc_trans : Transitive by_score_desc.
Proof. unfold by_score_desc. intros a b c ??. lia. Qed.

Lemma insert_by_score_sorted x l :
  StronglySorted by_score_desc l →
  StronglySorted by_score_desc (insert_by_score x l).
Proof.
  induction 1 as [|y l Hl IH Hy]; simpl.
  { repeat constructor. }
  destruct (Nat.leb_spec (rec_score y) (rec_score x)) as [Hle|Hgt].
  - constructor; [by constructor|].
    constructor; [done|].
    eapply Forall_impl; [exact Hy|]. intros z Hz. by etrans.
  - constructor; [done|].
    rewrite insert_by_score_perm. constructor; [|done].
    unfold by_score_desc. lia.
Qed.

Lemma sort_by_score_sorted l : StronglySorted by_score_desc (sort_by_score l).
Proof.
  induction l as [|x l IH]; simpl; [constructor|].
  by apply insert_by_score_sorted.
Qed.

(** Stability: the entries of any one score come out in the order they
    went in. *)
Lemma insert_by_score_stable s x l :
  filter (λ e, rec_score e = s) (insert_by_score x l)
  = filter (λ e, rec_score e = s) (x :: l).
Proof.
  induction l as [|y l IH]; simpl; [done|].
  destruct (Nat.leb_spec (rec_score y) (rec_score x)) as [Hle|Hgt]; [done|].
  rewrite (filter_cons _ y), IH, !filter_cons.
  repeat case_decide; try done; lia.
Qed.

Lemma sort_by_score_stable s l :
  filter (λ e, rec_score e = s) (sort_by_score l)
  = filter (λ e, rec_score e = s) l.
Proof.
  induction l as [|x l IH]; simpl; [done|].
  by rewrite insert_by_score_stable, !filter_cons, IH.
Qed.

(** A list sorted by decreasing score is determined by its entries of each
    score: there is only one stable sort. *)
Lemma sorted_by_score_unique l1 l2 :
  StronglySorted by_score_desc l1 →
  StronglySorted by_score_desc l2 →
  (∀ s, filter (λ e, rec_score e = s) l1 = filter (λ e, rec_score e = s) l2) →
  l1 = l2.
Proof.
  intros H1. revert l2.
  induction H1 as [|x l1 Hl1 IH Hx]; intros l2 H2 Heq.
  - destruct l2 as [|y l2]; [done|].
    specialize (Heq (rec_score y)).
    rewrite filter_nil, filter_cons_True in Heq; done.
  - destruct H2 as [|y l2 Hl2 Hy].
    { specialize (Heq (rec_score x)).
      rewrite filter_nil, filter_cons_True in Heq; done. }
    assert (rec_score x = rec_score y) as Hxy.
    { assert (x ∈ y :: l2) as Hin.
      { pose proof (Heq (rec_score x)) as E.
        rewrite (filter_cons_True _ x) in E by done.
        assert (x ∈ filter (λ e, rec_score e = rec_score x) (y :: l2)) as Hf
          by (rewrite <- E; left).
        by apply list_elem_of_filter in Hf as [_ ?]. }
      assert (y ∈ x :: l1) as Hin'.
      { pose proof (Heq (rec_score y)) as E.
        rewrite (filter_cons_True _ y) in E by done.
        assert (y ∈ filter (λ e, rec_score e = rec_score y) (x :: l1)) as Hf
          by (rewrite E; left).
        by apply list_elem_of_filter in Hf as [_ ?]. }
      apply elem_of_cons in Hin as [->|Hin]; [done|].
      apply elem_of_cons in Hin' as [->|Hin']; [done|].
      rewrite Forall_forall in Hx, Hy.
      specialize (Hx _ Hin'). specialize (Hy _ Hin).
      unfold by_score_desc in *. lia. }
    pose proof (Heq (rec_score x)) as E.
    rewrite (filter_cons_True _ x), (filter_cons_True _ y) in E by done.
    injection E as -> E. f_equal.
    apply IH; [done|]. intros s.
    destruct (decide (rec_score y = s)) as [<-|Hne]; [done|].
    specialize (Heq s). by rewrite !filter_cons_False in Heq.
Qed.

(** Whatever list a stable sort by decreasing score returns for [l], it is
    [sort_by_score l]. *)
Lemma sort_by_score_unique l l' :
  StronglySorted by_score_desc l' →
  (∀ s, filter (λ e, rec_score e = s) l' = filter (λ e, rec_score e = s) l) →
  l' = sort_by_score l.
Proof.
  intros Hs Hst. apply sorted_by_score_unique; [done|apply sort_by_score_sorted|].
  intros s. by rewrite Hst, sort_by_score_stable.
Qed.

End Sort.

(** ** The positive-scoring descriptors *)

Section Recommendations.

Implicit Types (ql q : string) (cat : list repo) (r d : repo).

Lemma recommendations_spec ql cat :
  recommendations ql cat
  = (λ r, mk_recommendation r (score_of ql r))
      <$> filter (λ r, 0 < score_of ql r) cat.
Proof.
  induction cat as [|r cat IH]; simpl; [done|].
  rewrite filter_cons.
  destruct (Nat.ltb_spec 0 (score_of ql r)); case_decide; try lia;
    by rewrite ?fmap_cons, IH.
Qed.

Lemma recommendations_app ql cat1 cat2 :
  recommendations ql (cat1 ++ cat2)
  = recommendations ql cat1 ++ recommendations ql cat2.
Proof. by rewrite !recommendations_spec, filter_app, fmap_app. Qed.

Lemma elem_of_recommendations ql cat e :
  e ∈ recommendations ql cat
  ↔ ∃ r, r ∈ cat ∧ 0 < score_of ql r ∧ e = mk_recommendation r (score_of ql r).
Proof.
  rewrite recommendations_spec, list_elem_of_fmap. split.
  - intros (r & -> & Hr). apply list_elem_of_filter in Hr as [??]. eauto.
  - intros (r & ? & ? & ->). exists r. split; [done|].
    by apply list_elem_of_filter.
Qed.

Lemma recommendations_length ql cat :
  length (recommendations ql cat) = count_above ql 0 cat.
Proof. by rewrite recommendations_spec, length_fmap. Qed.

Lemma recommendations_nil ql cat :
  recommendations ql cat = [] ↔ Forall (λ r, score_of ql r = 0) cat.
Proof.
  rewrite Forall_forall. split.
  - intros H r Hr. destruct (decide (score_of ql r = 0)) as [|Hne]; [done|].
    assert (mk_recommendation r (score_of ql r) ∈ recommendations ql cat) as Hin.
    { apply elem_of_recommendations. exists r. repeat split; [done|lia]. }
    rewrite H in Hin. by apply elem_of_nil in Hin.
  - intros H. destruct (recommendations ql cat) as [|e l] eqn:E; [done|].
    assert (e ∈ recommendations ql cat) as Hin by (rewrite E; left).
    apply elem_of_recommendations in Hin as (r & Hr & Hpos & _).
    specialize (H r Hr). lia.
Qed.

Lemma recommendations_score_pos ql cat e :
  e ∈ recommendations ql cat → 0 < rec_score e ≤ 5.
Proof.
  intros (r & _ & ? & ->)%elem_of_recommendations. simpl.
  pose proof (score_of_le ql r). lia.
Qed.

(** The entries with more than [s] points, and with exactly [s] points. *)
Lemma recommendations_above ql s cat :
  length (filter (λ e, s < rec_score e) (recommendations ql cat))
  = count_above ql s cat.
Proof.
  unfold count_above.
  induction cat as [|r cat IH]; simpl; [done|].
  destruct (Nat.ltb_spec 0 (score_of ql r));
    rewrite !filter_cons; simpl; repeat case_decide; simpl; lia.
Qed.

Lemma recommendations_tied ql s cat :
  0 < s →
  filter (λ e, rec_score e = s) (recommendations ql cat)
  = (λ r, mk_recommendation r s) <$> filter (λ r, score_of ql r = s) cat.
Proof.
  intros Hs.
  induction cat as [|r cat IH]; simpl; [done|].
  destruct (Nat.ltb_spec 0 (score_of ql r));
    rewrite !filter_cons; simpl; repeat case_decide; subst;
    rewrite ?fmap_cons; try lia; by rewrite IH.
Qed.

End Recommendations.

(** ** The ranking *)

Section Ranking.

Implicit Types (ql q : string) (cat : list repo) (r d : repo).
Implicit Types (l : list recommendation) (s : nat).

Lemma filter_none {A} (P : A → Prop) `{!∀ x, Decision (P x)} (l : list A) :
  Forall (λ x, ¬ P x) l → filter P l = [].
Proof.
  induction 1 as [|x l Hx _ IH]; [done|]. by rewrite filter_cons_False.
Qed.

Lemma filter_all {A} (P : A → Prop) `{!∀ x, Decision (P x)} (l : list A) :
  Forall P l → filter P l = l.
Proof.
  induction 1 as [|x l Hx _ IH]; [done|]. by rewrite filter_cons_True, IH.
Qed.

(** A list sorted by decreasing score is its entries above [s], then those
    with score [s], then those below. *)
Lemma sorted_three_parts s l :
  StronglySorted by_score_desc l →
  l = filter (λ e, s < rec_score e) l
      ++ filter (λ e, rec_score e = s) l
      ++ filter (λ e, rec_score e < s) l.
Proof.
  induction 1 as [|x l Hl IH Hx]; [done|].
  unfold by_score_desc in Hx.
  destruct (lt_eq_lt_dec s (rec_score x)) as [[Hlt|Heq]|Hgt].
  - rewrite filter_cons_True, (filter_cons_False _ x), (filter_cons_False _ x)
      by lia.
    simpl. by rewrite <- IH.
  - rewrite (filter_cons_False _ x), (filter_cons_True _ x),
      (filter_cons_False _ x) by lia.
    rewrite (filter_none (λ e, s < rec_score e) l) in *
      by (eapply Forall_impl; [exact Hx|]; simpl; intros; lia).
    simpl in *. by rewrite <- IH.
  - rewrite (filter_cons_False _ x), (filter_cons_False _ x),
      (filter_cons_True _ x) by lia.
    rewrite (filter_none (λ e, s < rec_score e) l),
      (filter_none (λ e, rec_score e = s) l),
      (filter_all (λ e, rec_score e < s) l);
      try (eapply Forall_impl; [exact Hx|]; simpl; intros; lia).
    done.
Qed.

(** Where a descriptor lands: after the descriptors of the whole catalog
    that score more, and after those before it that score the same. *)
Lemma ranking_lookup ql (l1 : list repo) d (l2 : list repo) s :
  score_of ql d = s → 0 < s →
  sort_by_score (recommendations ql (l1 ++ d :: l2))
    !! (count_above ql s (l1 ++ d :: l2) + count_tied ql s l1)
  = Some (mk_recommendation d s).
Proof.
  intros Hd Hs.
  set (cat := l1 ++ d :: l2).
  set (L := sort_by_score (recommendations ql cat)).
  rewrite (sorted_three_parts s L) by apply sort_by_score_sorted.
  assert (length (filter (λ e, s < rec_score e) L) = count_above ql s cat)
    as Habove.
  { subst L. by rewrite sort_by_score_perm, recommendations_above. }
  assert (filter (λ e, rec_score e = s) L
          = ((λ r, mk_recommendation r s) <$> filter (λ r, score_of ql r = s) l1)
            ++ mk_recommendation d s
            :: ((λ r, mk_recommendation r s)
                  <$> filter (λ r, score_of ql r = s) l2)) as Htied.
  { subst L cat.
    rewrite sort_by_score_stable, recommendations_tied by done.
    by rewrite filter_app, filter_cons_True, fmap_app, fmap_cons by done. }
  rewrite Htied, lookup_app_r by lia.
  rewrite Habove, Nat.add_comm, Nat.add_sub.
  rewrite lookup_app_l.
  - unfold count_tied.
    rewrite <- (length_fmap (λ r, mk_recommendation r s)).
    apply list_lookup_middle. done.
  - rewrite length_app, length_fmap. unfold count_tied. simpl. lia.
Qed.

Lemma count_tied_app ql s (l1 l2 : list repo) :
  count_tied ql s (l1 ++ l2) = count_tied ql s l1 + count_tied ql s l2.
Proof. unfold count_tied. by rewrite filter_app, length_app. Qed.

Lemma count_tied_cons ql s d (l : list repo) :
  score_of ql d = s → count_tied ql s (d :: l) = S (count_tied ql s l).
Proof. intros. unfold count_tied. by rewrite filter_cons_True. Qed.

(** The top of the ranking has the greatest score of the catalog. *)
Lemma ranking_top_max cat q top rest :
  ranking cat q = top :: rest →
  ∀ r, r ∈ cat → score_of (lower q) r ≤ rec_score top.
Proof.
  unfold ranking. intros H r Hr.
  destruct (decide (score_of (lower q) r = 0)) as [->|Hne]; [lia|].
  assert (mk_recommendation r (score_of (lower q) r)
          ∈ sort_by_score (recommendations (lower q) cat)) as Hin.
  { rewrite sort_by_score_perm. apply elem_of_recommendations.
    exists r. repeat split; [done|lia]. }
  pose proof (sort_by_score_sorted (recommendations (lower q) cat)) as Hs.
  rewrite H in Hin, Hs. apply StronglySorted_inv in Hs as [_ Hall].
  apply elem_of_cons in Hin as [<-|Hin]; [done|].
  rewrite Forall_forall in Hall. by apply Hall in Hin.
Qed.

Lemma ranking_elem_of cat q e :
  e ∈ ranking cat q
  ↔ ∃ r, r ∈ cat ∧ 0 < score_of (lower q) r
         ∧ e = mk_recommendation r (score_of (lower q) r).
Proof.
  unfold ranking. by rewrite sort_by_score_perm, elem_of_recommendations.
Qed.

End Ranking.

(** ** The three ways [_run] ends *)

Section Run.

Implicit Types (q : string) (cat : list repo) (r d : repo).

Lemma run_recommendation cat q top rest :
  ranking cat q = top :: rest →
  _run cat q = Ok (Recommendation (result_of top rest)).
Proof.
  unfold ranking, _run. intros H.
  destruct cat as [|r cat]; [done|].
  destruct (recommendations (lower q) (r :: cat)) as [|e l] eqn:E; [done|].
  cbv zeta. rewrite H. unfold result_of. simpl.
  by destruct rest.
Qed.

Lemma run_no_match cat q :
  cat ≠ [] → Forall (λ r, score_of (lower q) r = 0) cat →
  _run cat q = py_bind (names_of cat) (λ names, Ok (NoMatchFound q names)).
Proof.
  intros Hne Hz%recommendations_nil. unfold _run.
  destruct cat as [|r cat]; [done|]. cbv zeta. by rewrite Hz.
Qed.

Lemma run_cases cat q :
  (cat = [] ∧ _run cat q = Ok NoRepositoriesConfigured)
  ∨ (cat ≠ [] ∧ Forall (λ r, score_of (lower q) r = 0) cat
     ∧ _run cat q = py_bind (names_of cat) (λ names, Ok (NoMatchFound q names)))
  ∨ (∃ top rest, ranking cat q = top :: rest
     ∧ _run cat q = Ok (Recommendation (result_of top rest))).
Proof.
  destruct cat as [|r cat]; [by left|]. right.
  destruct (ranking (r :: cat) q) as [|top rest] eqn:E.
  - left. unfold ranking in E. apply (proj1 (sort_by_score_nil _)) in E.
    pose proof E as Hz%recommendations_nil.
    split; [done|]. split; [done|]. by apply run_no_match.
  - right. exists top, rest. split; [done|]. by apply run_recommendation.
Qed.

Lemma run_recommendation_inv cat q res :
  _run cat q = Ok (Recommendation res) →
  ∃ top rest, ranking cat q = top :: rest ∧ res = result_of top rest.
Proof.
  intros H.
  destruct (run_cases cat q) as [[_ E]|[(_ & _ & E)|(top & rest & Hr & E)]];
    rewrite E in H.
  - done.
  - destruct (names_of cat); done.
  - exists top, rest. split; [done|]. by injection H as <-.
Qed.

(** [recommendations[0]] never raises [IndexError]. *)
Lemma run_no_index_error cat q : _run cat q ≠ Raise IndexError.
Proof.
  destruct (run_cases cat q) as [[_ E]|[(_ & _ & E)|(top & rest & Hr & E)]];
    rewrite E; try done.
  assert (∀ l, names_of l ≠ Raise IndexError) as Hn.
  { induction l as [|r l IH]; simpl; [done|].
    unfold getitem. destruct (r !! "name"); simpl; [|done].
    destruct (names_of l) as [|e]; simpl; [done|]. congruence. }
  specialize (Hn cat). destruct (names_of cat); simpl; congruence.
Qed.

(** The list of names, when every descriptor has one. *)
Lemma names_of_named cat names :
  (λ r, r !! "name") <$> cat = Some <$> names → names_of cat = Ok names.
Proof.
  revert names. induction cat as [|r cat IH]; intros [|n names] H;
    simplify_eq/=; [done|].
  unfold getitem. rewrite H. simpl. by rewrite (IH names).
Qed.

Lemma names_of_unnamed cat :
  Exists (λ r, r !! "name" = None) cat → names_of cat = Raise (KeyError "name").
Proof.
  induction 1 as [r cat Hr|r cat _ IH]; simpl; unfold getitem.
  - by rewrite Hr.
  - destruct (r !! "name"); simpl; [|done]. by rewrite IH.
Qed.

Lemma names_of_inv cat names :
  names_of cat = Ok names → (λ r, r !! "name") <$> cat = Some <$> names.
Proof.
  revert names. induction cat as [|r cat IH]; intros names; simpl.
  { by intros [= <-]. }
  unfold getitem. destruct (r !! "name") as [n|]; simpl; [|done].
  destruct (names_of cat) as [ns|]; simpl; [|done].
  intros [= <-]. rewrite (fmap_cons Some). f_equal. by apply IH.
Qed.

(** What the result shows is the first three entries of the ranking. *)
Lemma output_ranking_result_of top rest :
  output_ranking (result_of top rest) = take 3 (shown_of <$> top :: rest).
Proof.
  unfold output_ranking, alternatives, result_of. simpl. f_equal.
  destruct rest as [|a [|b rest]]; done.
Qed.

End Run.

(** * The claims *)

(** C8: for the empty catalog, whatever the query, the empty one included,
    [_run] answers that no repository is configured and does not raise; the
    query has no effect on the answer. *)
Theorem C8_empty_catalog (user_query : string) :
  _run [] user_query = Ok NoRepositoriesConfigured
  ∧ _run [] EmptyString = Ok NoRepositoriesConfigured
  ∧ ∀ other_query, _run [] user_query = _run [] other_query.
Proof. done. Qed.

(** C4: for every query and every descriptor at most one of the four type
    conditions holds, the score is the description points (0 or 2) plus the
    name points (0 or 1) plus two points per type condition that holds, the
    latter depending on the tag and the query only, and it is at most 5. *)
Theorem C4_score_structure (query_lower : string) (r : repo) :
  let ty := lower (get_or r "tool_type" EmptyString) in
  bonuses_awarded ty query_lower ≤ 1
  ∧ type_bonus ty query_lower = 2 * bonuses_awarded ty query_lower
  ∧ score_of query_lower r
    = desc_points query_lower r + name_points query_lower r
      + type_bonus ty query_lower
  ∧ (desc_points query_lower r = 0 ∨ desc_points query_lower r = 2)
  ∧ (name_points query_lower r = 0 ∨ name_points query_lower r = 1)
  ∧ score_of query_lower r ≤ 5.
Proof.
  intros ty. split; [apply fires_exclusive|]. split; [done|].
  split; [apply score_of_split|].
  split; [unfold desc_points; case_match; auto|].
  split; [unfold name_points; case_match; auto|].
  apply score_of_le.
Qed.

(** C2: with the query "Can you search our product catalog?" and the two
    descriptors of the scenario, "Product Search" gets 2 points for its
    description, 1 for its name and 2 for its type, 5 in all; "Revenue
    Analytics" gets none; the top score is 5 and the confidence "high". *)
Theorem C2_search_scenario (tn1 tn2 : option string) :
  let cat := [product_search tn1; revenue_analytics tn2] in
  let q := "Can you search our product catalog?" in
  desc_points (lower q) (product_search tn1) = 2
  ∧ name_points (lower q) (product_search tn1) = 1
  ∧ type_bonus "search" (lower q) = 2
  ∧ score_of (lower q) (product_search tn1) = 5
  ∧ score_of (lower q) (revenue_analytics tn2) = 0
  ∧ top_score cat q = Some 5
  ∧ ∃ res, _run cat q = Ok (Recommendation res)
      ∧ recommended_repository res = Some "Product Search"
      ∧ confidence res = "high"
      ∧ alternative_repositories res = None.
Proof.
  destruct tn1, tn2; vm_compute; repeat split; eexists; done.
Qed.

(** The top score of the scenario of C2 is not 4. *)
Lemma C2_top_score_is_not_4 :
  top_score [product_search None; revenue_analytics None]
    "Can you search our product catalog?" ≠ Some 4.
Proof. vm_compute. discriminate. Qed.

(** C3: with the query "analyze our revenue report" and the same two
    descriptors, "Revenue Analytics" gets 2 points for its description, 1 for
    its name and 2 for its type, 5 in all, with confidence "high"; "Product
    Search" gets none and is left out, with or without its description. *)
Theorem C3_revenue_scenario (tn1 tn2 : option string) :
  let q := "analyze our revenue report" in
  let excluded (ps : repo) :=
    score_of (lower q) ps = 0
    ∧ recommendations (lower q) [ps; revenue_analytics tn2]
      = [mk_recommendation (revenue_analytics tn2) 5]
    ∧ ∃ res, _run [ps; revenue_analytics tn2] q = Ok (Recommendation res)
        ∧ recommended_repository res = Some "Revenue Analytics"
        ∧ confidence res = "high"
        ∧ alternative_repositories res = None in
  desc_points (lower q) (revenue_analytics tn2) = 2
  ∧ name_points (lower q) (revenue_analytics tn2) = 1
  ∧ type_bonus "analyst" (lower q) = 2
  ∧ score_of (lower q) (revenue_analytics tn2) = 5
  ∧ excluded (product_search tn1)
  ∧ excluded (product_search_bare tn1).
Proof.
  intros q excluded. repeat (split; [destruct tn2; reflexivity|]).
  split; destruct tn1, tn2; vm_compute; repeat split; eexists; done.
Qed.

(** In the scenario of C3 the score of "Revenue Analytics" is not 4. *)
Lemma C3_score_is_not_4 :
  score_of (lower "analyze our revenue report") (revenue_analytics None) ≠ 4.
Proof. vm_compute. discriminate. Qed.

(** When no descriptor scores, the answer lists the names in catalog order,
    provided every descriptor has one; the other three keys may be absent. *)
Lemma run_no_match_named (cat : list repo) (q : string) (names : list string) :
  cat ≠ [] → Forall (λ r, score_of (lower q) r = 0) cat →
  (λ r, r !! "name") <$> cat = Some <$> names →
  _run cat q = Ok (NoMatchFound q names).
Proof.
  intros Hne Hz Hn. rewrite run_no_match by done.
  by rewrite (names_of_named cat names).
Qed.

(** When no descriptor scores and one has no name, reading the names
    raises. *)
Lemma run_no_match_unnamed (cat : list repo) (q : string) :
  Forall (λ r, score_of (lower q) r = 0) cat →
  Exists (λ r, r !! "name" = None) cat →
  _run cat q = Raise (KeyError "name").
Proof.
  intros Hz Hex. rewrite run_no_match; [|by destruct Hex|done].
  by rewrite names_of_unnamed.
Qed.

(** C1: a catalog whose second descriptor has no "name", and a query for
    which both descriptors score zero: [_run] raises [KeyError] while it
    builds the list of names. *)
Theorem C1_missing_name_raises :
  let cat := [product_search (Some "product-search");
              descriptor None (Some "Sales data") None (Some "analyst")] in
  Forall (λ r, score_of (lower "zzz") r = 0) cat
  ∧ _run cat "zzz" = Raise (KeyError "name").
Proof. split; [repeat constructor|reflexivity]. Qed.

(** C10: a descriptor whose tag lowercases to one of the four known tags
    gets the two points of that tag whenever the lowercased query contains
    one of its trigger words, and scores exactly as the same descriptor with
    the tag written in lower case. *)
Theorem C10_tool_type_any_case (r : repo) (user_query tag : string)
    (words : list string) :
  (tag, words) ∈ type_rules →
  lower (get_or r "tool_type" EmptyString) = tag →
  any_word_in words (lower user_query) = true →
  type_bonus (lower (get_or r "tool_type" EmptyString)) (lower user_query) = 2
  ∧ score_of (lower user_query) r
    = desc_points (lower user_query) r + name_points (lower user_query) r + 2
  ∧ score_of (lower user_query) r
    = score_of (lower user_query) (<["tool_type" := tag]> r).
Proof.
  intros Hrule Hty Hw.
  assert (type_bonus tag (lower user_query) = 2) as Hb.
  { unfold type_rules in Hrule.
    repeat (apply elem_of_cons in Hrule as [[= -> ->]|Hrule]);
      [..|by apply elem_of_nil in Hrule];
      unfold type_bonus, bonuses_awarded, search_fires, analyst_fires,
        sql_fires, agent_fires, bonus_fires; rewrite Hw; reflexivity. }
  assert (lower tag = tag) as Hlow by (by rewrite <- Hty, lower_idemp).
  rewrite Hty. split; [done|]. split.
  - by rewrite score_of_split, Hty, Hb.
  - assert (∀ key, key ≠ "tool_type" →
        get_or (<["tool_type" := tag]> r) key EmptyString = get_or r key EmptyString) as Hkey.
    { intros key ?. unfold get_or. by rewrite lookup_insert_ne. }
    assert (get_or (<["tool_type" := tag]> r) "tool_type" EmptyString = tag) as Htag.
    { unfold get_or. by rewrite lookup_insert_eq. }
    rewrite !score_of_split, Hty. unfold desc_points, name_points.
    rewrite !Hkey by done. by rewrite Htag, Hlow.
Qed.

Lemma C10_witness :
  let r : repo := {[ "name" := "Docs"; "tool_type" := "SEARCH" ]} in
  type_bonus (lower (get_or r "tool_type" EmptyString)) (lower "Find the manual") = 2
  ∧ score_of (lower "Find the manual") r
    = desc_points (lower "Find the manual") r
      + name_points (lower "Find the manual") r + 2
  ∧ score_of (lower "Find the manual") r
    = score_of (lower "Find the manual") (<["tool_type" := "search"]> r).
Proof.
  intros r.
  apply (C10_tool_type_any_case r "Find the manual" "search" search_words).
  - left.
  - reflexivity.
  - reflexivity.
Defined.

(** C6: when some descriptor of the catalog scores above zero, [_run]
    returns a recommendation; the score [s] of its top entry is the greatest
    score of the catalog and lies between 1 and 5; the confidence is "high"
    exactly when [s >= 3] and "medium" exactly when [s] is 1 or 2. *)
Theorem C6_confidence_threshold (cat : list repo) (q : string) :
  (∃ d, d ∈ cat ∧ 0 < score_of (lower q) d) →
  ∃ res s,
    _run cat q = Ok (Recommendation res)
    ∧ top_score cat q = Some s
    ∧ (∀ d, d ∈ cat → score_of (lower q) d ≤ s)
    ∧ (∃ d, d ∈ cat ∧ score_of (lower q) d = s
            ∧ recommended_repository res = d !! "name")
    ∧ 1 ≤ s ≤ 5
    ∧ (confidence res = "high" ↔ 3 ≤ s)
    ∧ (confidence res = "medium" ↔ s = 1 ∨ s = 2).
Proof.
  intros (d & Hd & Hpos).
  destruct (ranking cat q) as [|top rest] eqn:E.
  { assert (mk_recommendation d (score_of (lower q) d) ∈ ranking cat q) as Hin
      by (apply ranking_elem_of; eauto).
    rewrite E in Hin. by apply elem_of_nil in Hin. }
  assert (top ∈ ranking cat q) as Htop by (rewrite E; left).
  apply ranking_elem_of in Htop as (d0 & Hd0 & Hpos0 & Htop).
  pose proof (score_of_le (lower q) d0) as Hle.
  exists (result_of top rest), (rec_score top).
  split; [by apply run_recommendation|].
  split; [unfold top_score; by rewrite E|].
  split; [by apply (ranking_top_max cat q top rest)|].
  split; [exists d0; by rewrite Htop|].
  rewrite Htop. unfold result_of.
  cbn [confidence rec_score mk_recommendation]. split; [lia|].
  destruct (Nat.leb_spec 3 (score_of (lower q) d0)); split; split;
    intros; try done; lia.
Qed.

Lemma C6_witness :
  let cat := DataRoutingCrew.repositories in
  let q := "What products are available in our inventory?" in
  ∃ res s,
    _run cat q = Ok (Recommendation res)
    ∧ top_score cat q = Some s
    ∧ (∀ d, d ∈ cat → score_of (lower q) d ≤ s)
    ∧ (∃ d, d ∈ cat ∧ score_of (lower q) d = s
            ∧ recommended_repository res = d !! "name")
    ∧ 1 ≤ s ≤ 5
    ∧ (confidence res = "high" ↔ 3 ≤ s)
    ∧ (confidence res = "medium" ↔ s = 1 ∨ s = 2).
Proof.
  intros cat q. apply (C6_confidence_threshold cat q).
  exists (product_search (Some "product-search")). split.
  - left.
  - vm_compute. lia.
Defined.

(** C7: in a recommendation the alternatives are the two entries, or the
    one entry, that follow the top entry in the ranking, so they stand at
    ranks 1 and 2 and never at rank 0; each comes from a
    descriptor of the catalog that scored above zero; the key is present
    exactly when more than one descriptor scored above zero; and when the
    names of the catalog are pairwise distinct no alternative bears the name
    of the recommended repository. *)
Theorem C7_alternatives (cat : list repo) (q : string) (res : result) :
  _run cat q = Ok (Recommendation res) →
  ∃ top rest,
    ranking cat q = top :: rest
    ∧ top :: rest ≡ₚ recommendations (lower q) cat
    ∧ (recommended_repository res, tool_name res) = shown_of top
    ∧ alternatives res = mk_alternative <$> take 2 rest
    ∧ (∀ i a, alternatives res !! i = Some a →
         i < 2 ∧ mk_alternative <$> ranking cat q !! S i = Some a)
    ∧ length (alternatives res) ≤ 2
    ∧ (∀ a, a ∈ alternatives res →
         ∃ d, d ∈ cat ∧ 0 < score_of (lower q) d
              ∧ a = mk_alternative (mk_recommendation d (score_of (lower q) d)))
    ∧ (is_Some (alternative_repositories res)
       ↔ 1 < count_above (lower q) 0 cat)
    ∧ (is_Some (alternative_repositories res) → alternatives res ≠ [])
    ∧ (NoDup ((λ d, d !! "name") <$> cat) →
       ∀ a, a ∈ alternatives res →
         alt_repository a ≠ recommended_repository res).
Proof.
  intros (top & rest & E & ->)%run_recommendation_inv.
  exists top, rest.
  assert (top :: rest ≡ₚ recommendations (lower q) cat) as Hperm.
  { rewrite <- E. apply sort_by_score_perm. }
  assert (alternatives (result_of top rest) = mk_alternative <$> take 2 rest)
    as Halts by (by destruct rest).
  split; [done|]. split; [done|]. split; [done|]. split; [done|].
  rewrite Halts. split.
  { intros i a Hi. rewrite list_lookup_fmap in Hi.
    destruct (decide (i < 2)) as [Hlt|Hge].
    - rewrite lookup_take_lt in Hi by done. by rewrite E.
    - rewrite lookup_take_ge in Hi by lia. done. }
  split.
  { rewrite length_fmap, length_take. lia. }
  split.
  { intros a (e & -> & He)%list_elem_of_fmap.
    apply subseteq_take in He.
    assert (e ∈ ranking cat q) as Hin by (rewrite E; by right).
    apply ranking_elem_of in Hin as (d & ? & ? & ->). eauto. }
  split.
  { rewrite <- recommendations_length, <- Hperm. simpl.
    destruct rest; simpl; split; intros H; try lia;
      [by destruct H|by eexists]. }
  split.
  { simpl. destruct rest; [by intros [??]|done]. }
  intros Hnd a (e & -> & He)%list_elem_of_fmap. simpl.
  apply subseteq_take in He.
  assert (NoDup (rec_repository <$> top :: rest)) as Hnd'.
  { rewrite Hperm, recommendations_spec, <- list_fmap_compose.
    assert ((λ d : repo, d !! "name")
              <$> filter (λ r, 0 < score_of (lower q) r) cat
            `sublist_of` (λ d : repo, d !! "name") <$> cat) as Hsub
      by apply fmap_sublist, sublist_filter.
    by eapply sublist_NoDup. }
  rewrite fmap_cons in Hnd'. apply NoDup_cons in Hnd' as [Hnot _].
  intros Heq. apply Hnot. rewrite <- Heq. by apply list_elem_of_fmap_2.
Qed.

Lemma C7_witness :
  let cat := DataRoutingCrew.repositories in
  let q := "What products are available in our inventory?" in
  ∃ res,
    _run cat q = Ok (Recommendation res)
    ∧ ∃ top rest,
        ranking cat q = top :: rest
        ∧ top :: rest ≡ₚ recommendations (lower q) cat
        ∧ (recommended_repository res, tool_name res) = shown_of top
        ∧ alternatives res = mk_alternative <$> take 2 rest
        ∧ (∀ i a, alternatives res !! i = Some a →
             i < 2 ∧ mk_alternative <$> ranking cat q !! S i = Some a)
        ∧ length (alternatives res) ≤ 2
        ∧ (∀ a, a ∈ alternatives res →
             ∃ d, d ∈ cat ∧ 0 < score_of (lower q) d
                  ∧ a = mk_alternative
                          (mk_recommendation d (score_of (lower q) d)))
        ∧ (is_Some (alternative_repositories res)
           ↔ 1 < count_above (lower q) 0 cat)
        ∧ (is_Some (alternative_repositories res) → alternatives res ≠ [])
        ∧ (NoDup ((λ d, d !! "name") <$> cat) →
           ∀ a, a ∈ alternatives res →
             alt_repository a ≠ recommended_repository res).
Proof.
  intros cat q. eexists. split.
  - vm_compute. reflexivity.
  - apply (C7_alternatives cat q). vm_compute. reflexivity.
Defined.

(** C5: two descriptors of the catalog with the same score [s] above zero,
    the first before the second.  In the ranking the first stands at the rank
    [k1] given by the number of descriptors that score more than [s] plus the
    number of those before it that score [s]; the second stands at a later
    rank [k2]; for every score the entries with that score are in catalog
    order; and [_run] returns a recommendation that shows the first three
    ranks in order, so that whichever of the two is shown is shown at its
    rank: the first as the recommendation when [k1 = 0], otherwise among the
    alternatives and ahead of the second. *)
Theorem C5_ties_keep_catalog_order (q : string) (l1 : list repo) (d1 : repo)
    (l2 : list repo) (d2 : repo) (l3 : list repo) (s : nat) :
  let cat := l1 ++ d1 :: l2 ++ d2 :: l3 in
  score_of (lower q) d1 = s → score_of (lower q) d2 = s → 0 < s →
  let k1 := count_above (lower q) s cat + count_tied (lower q) s l1 in
  let k2 := k1 + 1 + count_tied (lower q) s l2 in
  ranking cat q !! k1 = Some (mk_recommendation d1 s)
  ∧ ranking cat q !! k2 = Some (mk_recommendation d2 s)
  ∧ k1 < k2
  ∧ (∀ s', filter (λ e, rec_score e = s') (ranking cat q)
           = filter (λ e, rec_score e = s') (recommendations (lower q) cat))
  ∧ ∃ res,
      _run cat q = Ok (Recommendation res)
      ∧ output_ranking res = take 3 (shown_of <$> ranking cat q)
      ∧ (k1 < 3 → output_ranking res !! k1 = Some (d1 !! "name", d1 !! "tool_name"))
      ∧ (k2 < 3 → output_ranking res !! k2 = Some (d2 !! "name", d2 !! "tool_name")).
Proof.
  intros cat H1 H2 Hs k1 k2.
  assert (ranking cat q !! k1 = Some (mk_recommendation d1 s)) as Hk1.
  { by apply ranking_lookup. }
  assert (ranking cat q !! k2 = Some (mk_recommendation d2 s)) as Hk2.
  { subst k2 k1 cat. unfold ranking.
    replace (l1 ++ d1 :: l2 ++ d2 :: l3) with ((l1 ++ d1 :: l2) ++ d2 :: l3)
      by (by rewrite <- app_assoc).
    replace (_ + _ + 1 + _)
      with (count_above (lower q) s ((l1 ++ d1 :: l2) ++ d2 :: l3)
            + count_tied (lower q) s (l1 ++ d1 :: l2)).
    - by apply ranking_lookup.
    - rewrite count_tied_app, count_tied_cons by done. lia. }
  split; [done|]. split; [done|]. split; [lia|].
  split; [intros s'; apply sort_by_score_stable|].
  destruct (ranking cat q) as [|top rest] eqn:E; [done|].
  exists (result_of top rest).
  split; [by apply run_recommendation|].
  rewrite output_ranking_result_of.
  split; [done|].
  split; intros Hlt; rewrite lookup_take_lt, list_lookup_fmap by done.
  - by rewrite Hk1.
  - by rewrite Hk2.
Qed.

Lemma C5_witness :
  let q := "What products are available in our inventory?" in
  let d1 := product_search (Some "product-search") in
  let d2 := revenue_analytics (Some "revenue-semantic-view") in
  let l3 := drop 2 DataRoutingCrew.repositories in
  let cat := [] ++ d1 :: [] ++ d2 :: l3 in
  let k1 := count_above (lower q) 2 cat + count_tied (lower q) 2 [] in
  let k2 := k1 + 1 + count_tied (lower q) 2 [] in
  cat = DataRoutingCrew.repositories
  ∧ (k1, k2) = (0, 1)
  ∧ ranking cat q !! k1 = Some (mk_recommendation d1 2)
  ∧ ranking cat q !! k2 = Some (mk_recommendation d2 2)
  ∧ k1 < k2
  ∧ (∀ s', filter (λ e, rec_score e = s') (ranking cat q)
           = filter (λ e, rec_score e = s') (recommendations (lower q) cat))
  ∧ ∃ res,
      _run cat q = Ok (Recommendation res)
      ∧ output_ranking res = take 3 (shown_of <$> ranking cat q)
      ∧ (k1 < 3 → output_ranking res !! k1 = Some (d1 !! "name", d1 !! "tool_name"))
      ∧ (k2 < 3 → output_ranking res !! k2 = Some (d2 !! "name", d2 !! "tool_name")).
Proof.
  intros q d1 d2 l3 cat k1 k2.
  split; [vm_compute; reflexivity|].
  split; [vm_compute; reflexivity|].
  apply (C5_ties_keep_catalog_order q [] d1 [] d2 l3 2).
  - vm_compute; reflexivity.
  - vm_compute; reflexivity.
  - lia.
Defined.

(** Five descriptors that all score 2 for the query "data": the fourth and
    the fifth tie, and neither is the recommendation nor an alternative. *)
Lemma C5_tied_pair_not_shown :
  let cat := [plain "R1"; plain "R2"; plain "R3"; plain "R4"; plain "R5"] in
  score_of (lower "data") (plain "R4") = 2
  ∧ score_of (lower "data") (plain "R5") = 2
  ∧ ∃ res,
      _run cat "data" = Ok (Recommendation res)
      ∧ recommended_repository res = Some "R1"
      ∧ alt_repository <$> alternatives res = [Some "R2"; Some "R3"]
      ∧ recommended_repository res ≠ Some "R4"
      ∧ Some "R4" ∉ alt_repository <$> alternatives res.
Proof.
  intros cat. split; [reflexivity|]. split; [reflexivity|].
  eexists. split; [vm_compute; reflexivity|].
  split; [reflexivity|]. split; [reflexivity|]. split; [discriminate|].
  cbn. intros H. repeat (apply elem_of_cons in H as [H|H]; [discriminate|]).
  by apply elem_of_nil in H.
Qed.

(** C9: two queries that are equal after lowercasing give every descriptor
    the same score and the catalog the same ranking, and [_run] ends the
    same way for both, except that an answer of no match carries each call's
    own query (with the same names); in particular the two results are equal
    when the catalog is empty or some descriptor scores above zero. *)
Theorem C9_query_case_insensitive (cat : list repo) (q1 q2 : string) :
  lower q1 = lower q2 →
  (∀ d, score_of (lower q1) d = score_of (lower q2) d)
  ∧ ranking cat q1 = ranking cat q2
  ∧ match _run cat q1 with
    | Ok (NoMatchFound u names) =>
        u = q1 ∧ _run cat q2 = Ok (NoMatchFound q2 names)
    | o => _run cat q2 = o
    end
  ∧ (cat = [] ∨ (∃ d, d ∈ cat ∧ 0 < score_of (lower q1) d) →
     _run cat q1 = _run cat q2).
Proof.
  intros Hq. split; [by rewrite Hq|].
  assert (ranking cat q1 = ranking cat q2) as Hr
    by (unfold ranking; by rewrite Hq).
  split; [done|].
  destruct (run_cases cat q1) as [[-> E]|[(Hne & Hz & E)|(top & rest & Hr1 & E)]];
    rewrite E.
  - done.
  - split.
    + rewrite Hq in Hz. rewrite (run_no_match cat q2) by done.
      destruct (names_of cat); done.
    + intros [->|(d & Hd & Hpos)]; [done|].
      rewrite Forall_forall in Hz. specialize (Hz d Hd). lia.
  - rewrite Hr in Hr1. by rewrite (run_recommendation cat q2 top rest).
Qed.

Lemma C9_witness :
  let cat := DataRoutingCrew.repositories in
  lower "PRODUCT search" = lower "product SEARCH"
  ∧ (∀ d, score_of (lower "PRODUCT search") d
          = score_of (lower "product SEARCH") d)
  ∧ ranking cat "PRODUCT search" = ranking cat "product SEARCH"
  ∧ match _run cat "PRODUCT search" with
    | Ok (NoMatchFound u names) =>
        u = "PRODUCT search"
        ∧ _run cat "product SEARCH" = Ok (NoMatchFound "product SEARCH" names)
    | o => _run cat "product SEARCH" = o
    end
  ∧ (cat = [] ∨ (∃ d, d ∈ cat ∧ 0 < score_of (lower "PRODUCT search") d) →
     _run cat "PRODUCT search" = _run cat "product SEARCH").
Proof.
  intros cat. split; [reflexivity|].
  apply (C9_query_case_insensitive cat "PRODUCT search" "product SEARCH").
  reflexivity.
Defined.

(** The two queries of C9 are equal after lowercasing, and on a catalog in
    which neither scores the two answers differ. *)
Lemma C9_no_match_answers_differ :
  let cat := [revenue_analytics (Some "revenue-semantic-view")] in
  lower "PRODUCT search" = lower "product SEARCH"
  ∧ _run cat "PRODUCT search"
    = Ok (NoMatchFound "PRODUCT search" ["Revenue Analytics"])
  ∧ _run cat "product SEARCH"
    = Ok (NoMatchFound "product SEARCH" ["Revenue Analytics"])
  ∧ _run cat "PRODUCT search" ≠ _run cat "product SEARCH".
Proof.
  intros cat. split; [reflexivity|]. split; [reflexivity|].
  split; [reflexivity|]. vm_compute. discriminate.
Qed.

(** * Further properties of the selector and of the flow *)

Import Notions.

(** ** Substrings, tokens and lowercasing *)

Section Strings.

Implicit Types (s t p needle hay pre post : string) (c : ascii).

Lemma string_app_cons c s t :
  (String c s ++ t)%string = String c (s ++ t)%string.
Proof. reflexivity. Qed.

Lemma string_app_nil_l s : (EmptyString ++ s)%string = s.
Proof. reflexivity. Qed.

Lemma string_app_assoc s t p :
  ((s ++ t) ++ p)%string = (s ++ (t ++ p))%string.
Proof.
  induction s as [|c s IH]; [done|]. by rewrite !string_app_cons, IH.
Qed.

Lemma startswith_spec p s :
  startswith p s = true ↔ ∃ post, s = (p ++ post)%string.
Proof.
  revert s. induction p as [|a p IH]; intros s; simpl.
  { split; [by exists s|done]. }
  destruct s as [|b s].
  { split; [done|]. by intros [post ?]. }
  rewrite andb_true_iff, Ascii.eqb_eq, IH. split.
  - intros [-> [post ->]]. by exists post.
  - intros [post H]. rewrite string_app_cons in H. injection H as -> ->.
    split; [done|]. by exists post.
Qed.

(** [needle in hay] holds exactly when [hay] is some text, then [needle],
    then some text. *)
Lemma contains_spec needle hay :
  contains needle hay = true
  ↔ ∃ pre post, hay = (pre ++ needle ++ post)%string.
Proof.
  induction hay as [|b hay IH].
  - cbn [contains]. rewrite orb_false_r, startswith_spec. split.
    + intros [post H]. by exists EmptyString, post.
    + intros (pre & post & H). destruct pre; [by exists post|done].
  - cbn [contains]. rewrite orb_true_iff, startswith_spec, IH. split.
    + intros [[post H]|(pre & post & H)].
      * by exists EmptyString, post.
      * exists (String b pre), post. by rewrite string_app_cons, H.
    + intros (pre & post & H). destruct pre as [|a pre].
      * left. by exists post.
      * right. rewrite string_app_cons in H. injection H as -> H.
        by exists pre, post.
Qed.

Lemma contains_app_r needle hay t :
  contains needle hay = true → contains needle (hay ++ t) = true.
Proof.
  rewrite !contains_spec. intros (pre & post & ->).
  exists pre, (post ++ t)%string. by rewrite !string_app_assoc.
Qed.

Lemma contains_app_l needle hay t :
  contains needle hay = true → contains needle (t ++ hay) = true.
Proof.
  rewrite !contains_spec. intros (pre & post & ->).
  exists (t ++ pre)%string, post. by rewrite !string_app_assoc.
Qed.

(** The first character of a text that occurs in [hay] occurs in [hay]. *)
Lemma contains_first_char c needle hay :
  contains (String c needle) hay = true → c ∈ list_ascii_of_string hay.
Proof.
  rewrite contains_spec. intros (pre & post & ->).
  induction pre as [|a pre IH].
  - rewrite string_app_nil_l, string_app_cons. simpl. left.
  - rewrite string_app_cons. simpl. by right.
Qed.

Lemma lower_app s t : lower (s ++ t) = (lower s ++ lower t)%string.
Proof.
  induction s as [|c s IH]; [done|].
  rewrite string_app_cons. simpl. by rewrite string_app_cons, IH.
Qed.

Lemma isspace_lower_char c : isspace c = true → lower_char c = c.
Proof.
  destruct c as [[] [] [] [] [] [] [] []]; try reflexivity; discriminate.
Qed.

(** A whitespace character ends the token being read. *)
Lemma split_from_app cur s c t :
  isspace c = true →
  split_from cur (s ++ String c t) = split_from cur s ++ split t.
Proof.
  intros Hc. revert cur. induction s as [|a s IH]; intros cur.
  - rewrite string_app_nil_l. simpl. rewrite Hc.
    by destruct (String.eqb cur EmptyString).
  - rewrite string_app_cons. simpl. destruct (isspace a); [|apply IH].
    destruct (String.eqb cur EmptyString); by rewrite IH.
Qed.

Lemma split_app s c t :
  isspace c = true → split (s ++ String c t) = split s ++ split t.
Proof. apply split_from_app. Qed.

Lemma blank_lower s : blank s = true → lower s = s.
Proof.
  unfold blank. induction s as [|c s IH]; simpl; [done|].
  rewrite andb_true_iff. intros [Hc Hs]. by rewrite isspace_lower_char, IH.
Qed.

Lemma blank_split s : blank s = true → split s = [].
Proof.
  unfold blank, split. induction s as [|c s IH]; simpl; [done|].
  rewrite andb_true_iff. intros [-> Hs]. by apply IH.
Qed.

Lemma blank_contains c needle s :
  blank s = true → isspace c = false → contains (String c needle) s = false.
Proof.
  intros Hb Hc. apply not_true_is_false. intros Hin%contains_first_char.
  unfold blank in Hb. rewrite forallb_forall in Hb.
  apply list_elem_of_In, Hb in Hin. congruence.
Qed.

End Strings.

(** ** How the query and the descriptor bear on a score *)

Section ScoreFacts.

Implicit Types (q qa qb text : string) (r d : repo) (cat : list repo).

Lemma any_keyword_in_app qa qb c text :
  isspace c = true →
  any_keyword_in (qa ++ String c qb) text
  = any_keyword_in qa text || any_keyword_in qb text.
Proof.
  intros Hc. unfold any_keyword_in. by rewrite split_app, existsb_app.
Qed.

Lemma any_word_in_mono (words : list string) qa qb :
  (∀ w, contains w qa = true → contains w qb = true) →
  any_word_in words qa = true → any_word_in words qb = true.
Proof.
  intros Hc. unfold any_word_in. rewrite !existsb_exists.
  intros (w & Hw & Hin). exists w. split; [done|]. by apply Hc.
Qed.

(** A query that finds whatever another finds scores at least as much. *)
Lemma score_of_mono qa qb r :
  (∀ text, any_keyword_in qa text = true → any_keyword_in qb text = true) →
  (∀ words, any_word_in words qa = true → any_word_in words qb = true) →
  score_of qa r ≤ score_of qb r.
Proof.
  intros Hk Hw. rewrite !score_of_split.
  assert (desc_points qa r ≤ desc_points qb r) as Hd.
  { unfold desc_points.
    destruct (any_keyword_in qa _) eqn:E; [by rewrite (Hk _ E)|].
    case_match; lia. }
  assert (name_points qa r ≤ name_points qb r) as Hn.
  { unfold name_points.
    destruct (any_keyword_in qa _) eqn:E; [by rewrite (Hk _ E)|].
    case_match; lia. }
  assert (∀ tag words ty,
    Nat.b2n (bonus_fires tag words ty qa) ≤ Nat.b2n (bonus_fires tag words ty qb))
    as Hb.
  { intros tag words ty. unfold bonus_fires.
    destruct (String.eqb ty tag); simpl; [|lia].
    destruct (any_word_in words qa) eqn:E; [by rewrite (Hw _ E)|].
    simpl. lia. }
  unfold type_bonus, bonuses_awarded, search_fires, analyst_fires, sql_fires,
    agent_fires.
  set (ty := lower (get_or r "tool_type" EmptyString)).
  pose proof (Hb "search" search_words ty).
  pose proof (Hb "analyst" analyst_words ty).
  pose proof (Hb "sql" sql_words ty).
  pose proof (Hb "agent" agent_words ty).
  lia.
Qed.

Lemma lower_query_app q q' c :
  isspace c = true →
  lower (q ++ String c q') = (lower q ++ String c (lower q'))%string.
Proof.
  intros Hc. rewrite lower_app. simpl. by rewrite isspace_lower_char.
Qed.

(** A descriptor whose lowercased tag is none of the four known tags gets
    no type points. *)
Lemma type_bonus_unknown ty q : ty ∉ known_tags → type_bonus ty q = 0.
Proof.
  intros Hty. unfold type_bonus, bonuses_awarded, search_fires, analyst_fires,
    sql_fires, agent_fires, bonus_fires.
  assert (∀ tag, tag ∈ known_tags → String.eqb ty tag = false) as Hne.
  { intros tag Htag. apply String.eqb_neq. by intros ->. }
  rewrite !Hne; [done|unfold known_tags; set_solver..].
Qed.

(** The score in terms of the number of rules that apply. *)
Lemma score_of_rules_fired q r :
  (score_of q r = 0 ↔ rules_fired q r = 0)
  ∧ (1 ≤ score_of q r ≤ 2 ↔ rules_fired q r = 1)
  ∧ (3 ≤ score_of q r ↔ 2 ≤ rules_fired q r).
Proof.
  rewrite score_of_split. unfold rules_fired, type_bonus.
  pose proof (fires_exclusive q (lower (get_or r "tool_type" EmptyString))).
  destruct (bonuses_awarded _ _) as [|[|n]]; [| |lia];
    unfold desc_points, name_points;
    destruct (any_keyword_in q (lower (get_or r "description" EmptyString)));
    destruct (any_keyword_in q (lower (get_or r "name" EmptyString)));
    simpl; lia.
Qed.

(** In a catalog with a descriptor that scores, one descriptor is the first
    among those of greatest score. *)
Lemma first_max_exists q cat :
  cat ≠ [] →
  ∃ l1 d l2,
    cat = l1 ++ d :: l2
    ∧ Forall (λ r, score_of q r < score_of q d) l1
    ∧ Forall (λ r, score_of q r ≤ score_of q d) l2.
Proof.
  induction cat as [|x cat IH]; [done|]. intros _.
  destruct cat as [|y cat].
  { exists [], x, []. by repeat constructor. }
  destruct IH as (l1 & d & l2 & E & H1 & H2); [done|].
  destruct (decide (score_of q d ≤ score_of q x)) as [Hle|Hgt].
  - exists [], x, (y :: cat). split; [done|]. split; [constructor|].
    rewrite E. apply Forall_app. split.
    + eapply Forall_impl; [exact H1|]. simpl. intros. lia.
    + constructor; [done|].
      eapply Forall_impl; [exact H2|]. simpl. intros. lia.
  - exists (x :: l1), d, l2. rewrite E. split; [done|].
    split; [|done]. constructor; [lia|done].
Qed.

(** The first descriptor of greatest score heads the ranking. *)
Lemma ranking_first_max q (l1 : list repo) d (l2 : list repo) :
  0 < score_of (lower q) d →
  Forall (λ r, score_of (lower q) r < score_of (lower q) d) l1 →
  Forall (λ r, score_of (lower q) r ≤ score_of (lower q) d) l2 →
  ∃ rest,
    ranking (l1 ++ d :: l2) q
    = mk_recommendation d (score_of (lower q) d) :: rest.
Proof.
  intros Hpos H1 H2.
  pose proof (ranking_lookup (lower q) l1 d l2 _ eq_refl Hpos) as Hk.
  assert (count_above (lower q) (score_of (lower q) d) (l1 ++ d :: l2) = 0)
    as Ha.
  { unfold count_above. rewrite filter_none; [done|].
    apply Forall_app. split.
    - eapply Forall_impl; [exact H1|]. simpl. intros. lia.
    - constructor; [lia|].
      eapply Forall_impl; [exact H2|]. simpl. intros. lia. }
  assert (count_tied (lower q) (score_of (lower q) d) l1 = 0) as Ht.
  { unfold count_tied. rewrite filter_none; [done|].
    eapply Forall_impl; [exact H1|]. simpl. intros. lia. }
  rewrite Ha, Ht in Hk. unfold ranking.
  destruct (sort_by_score _) as [|e rest]; [done|].
  injection Hk as ->. by exists rest.
Qed.

(** Some descriptor scores exactly when the ranking is not empty. *)
Lemma ranking_nonempty cat q :
  (∃ d, d ∈ cat ∧ 0 < score_of (lower q) d)
  ↔ ∃ top rest, ranking cat q = top :: rest.
Proof.
  split.
  - intros (d & Hd & Hpos).
    destruct (ranking cat q) as [|top rest] eqn:E; [|by eauto].
    assert (mk_recommendation d (score_of (lower q) d) ∈ ranking cat q) as Hin
      by (apply ranking_elem_of; eauto).
    rewrite E in Hin. by apply elem_of_nil in Hin.
  - intros (top & rest & E).
    assert (top ∈ ranking cat q) as Hin by (rewrite E; left).
    apply ranking_elem_of in Hin as (d & ? & ? & _). eauto.
Qed.

End ScoreFacts.

(** ** How [_run] ends, in terms of the catalog *)

Section Outcomes.

Implicit Types (q : string) (r d : repo) (cat : list repo).

Lemma names_of_raise cat e :
  names_of cat = Raise e →
  e = KeyError "name" ∧ Exists (λ r, r !! "name" = None) cat.
Proof.
  induction cat as [|r cat IH]; simpl; [done|].
  unfold getitem. destruct (r !! "name") as [n|] eqn:En; simpl.
  - destruct (names_of cat) as [ns|e']; simpl; [done|].
    intros [= <-]. destruct IH as [-> Hex]; [done|].
    split; [done|]. by right.
  - intros [= <-]. split; [done|]. by left.
Qed.

Lemma recommends_iff cat q :
  recommends (_run cat q) ↔ ∃ d, d ∈ cat ∧ 0 < score_of (lower q) d.
Proof.
  rewrite ranking_nonempty. unfold recommends. split.
  - intros (res & (top & rest & E & _)%run_recommendation_inv). eauto.
  - intros (top & rest & E). exists (result_of top rest).
    by apply run_recommendation.
Qed.

(** The list of scores of the ranking fixes the best score, the confidence
    and the scores of the alternatives. *)
Lemma scores_determine cat1 cat2 q1 q2 :
  rec_score <$> ranking cat1 q1 = rec_score <$> ranking cat2 q2 →
  top_score cat1 q1 = top_score cat2 q2
  ∧ (recommends (_run cat1 q1) ↔ recommends (_run cat2 q2))
  ∧ ∀ res1 res2,
      _run cat1 q1 = Ok (Recommendation res1) →
      _run cat2 q2 = Ok (Recommendation res2) →
      confidence res1 = confidence res2
      ∧ alt_score <$> alternatives res1 = alt_score <$> alternatives res2.
Proof.
  intros Hs. split; [|split].
  - unfold top_score.
    destruct (ranking cat1 q1), (ranking cat2 q2); simplify_eq/=;
      [done|by f_equal].
  - rewrite !recommends_iff, !ranking_nonempty.
    destruct (ranking cat1 q1) as [|a l], (ranking cat2 q2) as [|b k];
      try discriminate Hs; split; intros (? & ? & ?); try done; eauto.
  - intros res1 res2 (t1 & l1 & E1 & ->)%run_recommendation_inv
      (t2 & l2 & E2 & ->)%run_recommendation_inv.
    rewrite E1, E2 in Hs. rewrite !fmap_cons in Hs. injection Hs as Ht Hl.
    unfold result_of, alternatives. cbn [confidence alternative_repositories].
    rewrite Ht. split; [done|].
    assert (alt_score <$> (mk_alternative <$> take 2 l1)
            = alt_score <$> (mk_alternative <$> take 2 l2)) as Ha.
    { rewrite <- !list_fmap_compose, !fmap_take.
      by change (alt_score ∘ mk_alternative) with rec_score; rewrite Hl. }
    destruct l1 as [|a1 l1], l2 as [|a2 l2];
      [done|discriminate Hl|discriminate Hl|exact Ha].
Qed.

Lemma StronglySorted_fmap_impl {A B} (R : relation A) (R' : relation B)
    (f : A → B) (l : list A) :
  (∀ x y, R x y → R' (f x) (f y)) →
  StronglySorted R l → StronglySorted R' (f <$> l).
Proof.
  intros Hf. induction 1 as [|x l Hl IH Hx]; [constructor|].
  rewrite fmap_cons. constructor; [done|].
  rewrite Forall_fmap. eapply Forall_impl; [exact Hx|]. intros y. apply Hf.
Qed.

Global Instance score_order_antisymm : AntiSymm (=) (flip le).
Proof. intros x y Hxy Hyx. unfold flip in *. lia. Qed.

Lemma ranking_sorted cat q : StronglySorted by_score_desc (ranking cat q).
Proof. apply sort_by_score_sorted. Qed.

(** With pairwise distinct names in the catalog, the names of the ranking
    are pairwise distinct. *)
Lemma ranking_names_NoDup cat q :
  NoDup ((λ d : repo, d !! "name") <$> cat) →
  NoDup (rec_repository <$> ranking cat q).
Proof.
  intros Hnd. unfold ranking.
  rewrite sort_by_score_perm, recommendations_spec, <- list_fmap_compose.
  assert ((λ d : repo, d !! "name")
            <$> filter (λ r, 0 < score_of (lower q) r) cat
          `sublist_of` (λ d : repo, d !! "name") <$> cat) as Hsub
    by apply fmap_sublist, sublist_filter.
  by eapply sublist_NoDup.
Qed.

(** Descriptors with the same four fields score alike and give the same
    entry. *)
Lemma same_fields_lookup r1 r2 key :
  same_fields r1 r2 → key ∈ read_keys → r1 !! key = r2 !! key.
Proof. unfold same_fields. rewrite Forall_forall. auto. Qed.

Lemma same_fields_score q r1 r2 :
  same_fields r1 r2 → score_of q r1 = score_of q r2.
Proof.
  intros H. unfold score_of, get_or.
  rewrite (same_fields_lookup r1 r2 "description"),
    (same_fields_lookup r1 r2 "name"),
    (same_fields_lookup r1 r2 "tool_type");
    [done|done|unfold read_keys; set_solver..].
Qed.

Lemma same_fields_entry r1 r2 s :
  same_fields r1 r2 → mk_recommendation r1 s = mk_recommendation r2 s.
Proof.
  intros H. unfold mk_recommendation.
  rewrite (same_fields_lookup r1 r2 "description"),
    (same_fields_lookup r1 r2 "name"),
    (same_fields_lookup r1 r2 "tool_name"),
    (same_fields_lookup r1 r2 "tool_type");
    [done|done|unfold read_keys; set_solver..].
Qed.

Lemma same_lowered_score q r1 r2 :
  same_lowered r1 r2 → score_of q r1 = score_of q r2.
Proof.
  unfold same_lowered, scored_keys. intros H.
  apply Forall_cons in H as [Hn H]. apply Forall_cons in H as [Hd H].
  apply Forall_cons in H as [Ht _].
  unfold score_of. by rewrite Hn, Hd, Ht.
Qed.

(** Sorting two lists with the same scores, position by position, gives two
    lists with the same scores, position by position. *)
Lemma insert_by_score_scores x1 x2 (l1 l2 : list recommendation) :
  rec_score x1 = rec_score x2 →
  rec_score <$> l1 = rec_score <$> l2 →
  rec_score <$> insert_by_score x1 l1 = rec_score <$> insert_by_score x2 l2.
Proof.
  intros Hx. revert l2.
  induction l1 as [|y1 l1 IH]; intros [|y2 l2] Hl; try discriminate Hl.
  { simpl. by rewrite Hx. }
  rewrite !fmap_cons in Hl. injection Hl as Hy Hl.
  simpl. rewrite Hx, Hy.
  destruct (rec_score y2 <=? rec_score x2); rewrite !fmap_cons.
  - by rewrite Hx, Hy, Hl.
  - rewrite Hy. f_equal. by apply IH.
Qed.

Lemma sort_by_score_scores (l1 l2 : list recommendation) :
  rec_score <$> l1 = rec_score <$> l2 →
  rec_score <$> sort_by_score l1 = rec_score <$> sort_by_score l2.
Proof.
  revert l2.
  induction l1 as [|x1 l1 IH]; intros [|x2 l2] Hl; try discriminate Hl.
  { done. }
  rewrite !fmap_cons in Hl. injection Hl as Hx Hl. simpl.
  apply insert_by_score_scores; [done|]. by apply IH.
Qed.

End Outcomes.

(** ** Errors and outcomes of [_run] *)

(** X1: [_run] raises exactly when no descriptor scores and some descriptor
    has no "name"; the exception is then [KeyError] on that key.  Nothing
    else raises, whatever keys are absent. *)
Theorem run_raises_exactly (cat : list repo) (q : string) (e : exn) :
  _run cat q = Raise e
  ↔ e = KeyError "name"
    ∧ Forall (λ r, score_of (lower q) r = 0) cat
    ∧ Exists (λ r, r !! "name" = None) cat.
Proof.
  split.
  - intros H.
    destruct (run_cases cat q) as [[_ E]|[(_ & Hz & E)|(top & rest & _ & E)]];
      rewrite E in H; [done| |done].
    destruct (names_of cat) as [ns|e'] eqn:En; [done|].
    injection H as ->. by destruct (names_of_raise cat e En).
  - intros (-> & Hz & Hex). by apply run_no_match_unnamed.
Qed.

(** X2: which of its three answers [_run] gives: no repositories exactly for
    the empty catalog; a recommendation exactly when some descriptor scores
    above zero; no match, with the query as given and the names in catalog
    order, exactly when the catalog is not empty, nothing scores and every
    descriptor has a name. *)
Theorem run_answer_cases (cat : list repo) (q : string) :
  (_run cat q = Ok NoRepositoriesConfigured ↔ cat = [])
  ∧ (recommends (_run cat q) ↔ ∃ d, d ∈ cat ∧ 0 < score_of (lower q) d)
  ∧ ∀ u names,
      _run cat q = Ok (NoMatchFound u names)
      ↔ u = q ∧ cat ≠ []
        ∧ Forall (λ r, score_of (lower q) r = 0) cat
        ∧ (λ r : repo, r !! "name") <$> cat = Some <$> names.
Proof.
  split; [|split; [apply recommends_iff|]].
  - split; [|by intros ->].
    destruct (run_cases cat q) as [[? _]|[(_ & _ & E)|(top & rest & _ & E)]];
      [done|..]; rewrite E; [|done].
    destruct (names_of cat); done.
  - intros u names. split.
    + intros H.
      destruct (run_cases cat q) as [[_ E]|[(Hne & Hz & E)|(top & rest & _ & E)]];
        rewrite E in H; [done| |done].
      destruct (names_of cat) as [ns|] eqn:En; [|done].
      injection H as <- <-. by apply names_of_inv in En.
    + intros (-> & Hne & Hz & Hn). by apply run_no_match_named.
Qed.

(** X3: when some descriptor scores above zero, the recommendation is the
    first descriptor of the catalog among those of greatest score: every
    descriptor before it scores less, none after it scores more, and the
    four text fields of the answer are its own. *)
Theorem run_recommends_first_best (cat : list repo) (q : string) :
  (∃ d, d ∈ cat ∧ 0 < score_of (lower q) d) →
  ∃ l1 d l2 res,
    cat = l1 ++ d :: l2
    ∧ Forall (λ r, score_of (lower q) r < score_of (lower q) d) l1
    ∧ Forall (λ r, score_of (lower q) r ≤ score_of (lower q) d) l2
    ∧ 0 < score_of (lower q) d
    ∧ _run cat q = Ok (Recommendation res)
    ∧ recommended_repository res = d !! "name"
    ∧ DataRepositoryTool.tool_name res = d !! "tool_name"
    ∧ tool_type res = d !! "tool_type"
    ∧ description res = d !! "description"
    ∧ confidence res
      = (if 3 <=? score_of (lower q) d then "high" else "medium").
Proof.
  intros (d0 & Hd0 & Hpos0).
  destruct (first_max_exists (lower q) cat) as (l1 & d & l2 & E & H1 & H2).
  { intros ->. by apply elem_of_nil in Hd0. }
  assert (score_of (lower q) d0 ≤ score_of (lower q) d) as Hle.
  { rewrite E in Hd0. rewrite Forall_forall in H1, H2.
    apply elem_of_app in Hd0 as [Hin|Hin]; [apply H1 in Hin; lia|].
    apply elem_of_cons in Hin as [->|Hin]; [done|by apply H2]. }
  destruct (ranking_first_max q l1 d l2) as [rest Hr]; [lia|done|done|].
  rewrite <- E in Hr.
  exists l1, d, l2, (result_of (mk_recommendation d (score_of (lower q) d)) rest).
  repeat (split; [done || lia|]).
  split; [by apply run_recommendation|done].
Qed.

Lemma first_best_witness :
  let cat := DataRoutingCrew.repositories in
  let q := "Which database table holds the sales report?" in
  ∃ l1 d l2 res,
    cat = l1 ++ d :: l2
    ∧ Forall (λ r, score_of (lower q) r < score_of (lower q) d) l1
    ∧ Forall (λ r, score_of (lower q) r ≤ score_of (lower q) d) l2
    ∧ 0 < score_of (lower q) d
    ∧ _run cat q = Ok (Recommendation res)
    ∧ recommended_repository res = d !! "name"
    ∧ DataRepositoryTool.tool_name res = d !! "tool_name"
    ∧ tool_type res = d !! "tool_type"
    ∧ description res = d !! "description"
    ∧ confidence res
      = (if 3 <=? score_of (lower q) d then "high" else "medium").
Proof.
  intros cat q. apply (run_recommends_first_best cat q).
  exists (revenue_analytics (Some "revenue-semantic-view")). split.
  - right. left.
  - vm_compute. lia.
Defined.

(** X4: in a recommendation the alternatives come in order of decreasing
    score, each scores at least 1 and at most the best score, and no entry
    of the ranking that is left out scores more than an alternative. *)
Theorem run_alternatives_by_score (cat : list repo) (q : string)
    (res : result) :
  _run cat q = Ok (Recommendation res) →
  ∃ s,
    top_score cat q = Some s
    ∧ Forall (λ a, 1 ≤ alt_score a ≤ s) (alternatives res)
    ∧ StronglySorted (λ a b, alt_score b ≤ alt_score a) (alternatives res)
    ∧ ∀ k e a,
        3 ≤ k → ranking cat q !! k = Some e → a ∈ alternatives res →
        rec_score e ≤ alt_score a.
Proof.
  intros (top & rest & E & ->)%run_recommendation_inv.
  exists (rec_score top).
  pose proof (ranking_sorted cat q) as Hs. rewrite E in Hs.
  apply StronglySorted_inv in Hs as [Hrest Htop].
  assert (alternatives (result_of top rest) = mk_alternative <$> take 2 rest)
    as -> by (by destruct rest).
  rewrite <- (take_drop 2 rest) in Hrest.
  split; [unfold top_score; by rewrite E|]. split; [|split].
  - rewrite Forall_fmap. apply Forall_forall. intros e He. simpl.
    apply subseteq_take in He.
    assert (e ∈ ranking cat q) as Hin by (rewrite E; by right).
    apply ranking_elem_of in Hin as (d & _ & Hpos & Hd).
    rewrite Forall_forall in Htop. specialize (Htop e He).
    unfold by_score_desc in Htop. rewrite Hd in Htop |- *. simpl in *. lia.
  - eapply StronglySorted_fmap_impl; [|by eapply StronglySorted_app_1_l].
    by intros x y.
  - intros k e a Hk He (x & -> & Hx)%list_elem_of_fmap. simpl.
    rewrite E in He. destruct k as [|k]; [lia|]. simpl in He.
    assert (e ∈ drop 2 rest) as Hin.
    { apply list_elem_of_lookup. exists (k - 2).
      rewrite lookup_drop. by replace (2 + (k - 2)) with k by lia. }
    by apply (StronglySorted_app_1_elem_of _ _ _ x e Hrest).
Qed.

Lemma alternatives_by_score_witness :
  let cat := DataRoutingCrew.repositories in
  let q := "search sales data" in
  ∃ res,
    _run cat q = Ok (Recommendation res)
    ∧ rec_score <$> ranking cat q = [5; 3; 2; 2]
    ∧ alt_score <$> alternatives res = [3; 2]
    ∧ ∃ s,
        top_score cat q = Some s
        ∧ Forall (λ a, 1 ≤ alt_score a ≤ s) (alternatives res)
        ∧ StronglySorted (λ a b, alt_score b ≤ alt_score a) (alternatives res)
        ∧ ∀ k e a,
            3 ≤ k → ranking cat q !! k = Some e → a ∈ alternatives res →
            rec_score e ≤ alt_score a.
Proof.
  intros cat q. eexists. split; [vm_compute; reflexivity|].
  split; [vm_compute; reflexivity|]. split; [vm_compute; reflexivity|].
  apply (run_alternatives_by_score cat q). vm_compute. reflexivity.
Defined.

(** ** The query *)

(** X5: joining two queries with a whitespace character gives a query for
    which every descriptor scores at least as much as for either part, so a
    catalog that has a recommendation for a part has one for the whole. *)
Theorem more_words_never_lower (q q' : string) (c : ascii) :
  isspace c = true →
  (∀ r, score_of (lower q) r ≤ score_of (lower (q ++ String c q')) r
        ∧ score_of (lower q') r ≤ score_of (lower (q ++ String c q')) r)
  ∧ ∀ cat,
      recommends (_run cat q) ∨ recommends (_run cat q') →
      recommends (_run cat (q ++ String c q')).
Proof.
  intros Hc.
  assert (∀ r, score_of (lower q) r ≤ score_of (lower (q ++ String c q')) r
               ∧ score_of (lower q') r ≤ score_of (lower (q ++ String c q')) r)
    as Hs.
  { intros r. rewrite lower_query_app by done. split.
    - apply score_of_mono.
      + intros text H. by rewrite any_keyword_in_app, H.
      + intros words. apply any_word_in_mono. intros w.
        apply contains_app_r.
    - apply score_of_mono.
      + intros text H. rewrite any_keyword_in_app, H by done.
        apply orb_true_r.
      + intros words. apply any_word_in_mono. intros w H.
        apply contains_app_l.
        by apply (contains_app_l w (lower q') (String c EmptyString)). }
  split; [done|]. intros cat. rewrite !recommends_iff.
  intros [(d & Hd & Hpos)|(d & Hd & Hpos)]; exists d; split; try done;
    destruct (Hs d); lia.
Qed.

Lemma more_words_witness :
  (∀ r, score_of (lower "find") r ≤ score_of (lower "find revenue") r
        ∧ score_of (lower "revenue") r ≤ score_of (lower "find revenue") r)
  ∧ ∀ cat,
      recommends (_run cat "find") ∨ recommends (_run cat "revenue") →
      recommends (_run cat "find revenue").
Proof.
  apply (more_words_never_lower "find" "revenue" " "). reflexivity.
Defined.

(** For a query made of whitespace only no rule applies. *)
Lemma blank_score_zero (q : string) (r : repo) :
  blank q = true → score_of (lower q) r = 0.
Proof.
  intros Hb. rewrite blank_lower by done.
  apply (score_of_rules_fired q r). unfold rules_fired.
  unfold desc_points, name_points, any_keyword_in.
  rewrite blank_split by done. simpl.
  unfold type_bonus, bonuses_awarded, search_fires, analyst_fires,
    sql_fires, agent_fires, bonus_fires, any_word_in, search_words,
    analyst_words, sql_words, agent_words. simpl.
  rewrite !(blank_contains _ _ q Hb) by reflexivity.
  rewrite !andb_false_r. reflexivity.
Qed.

(** X6: for a query made of whitespace only, the empty query included, no
    descriptor scores, so [_run] gives no recommendation on any catalog. *)
Theorem blank_query_matches_nothing (q : string) :
  blank q = true →
  (∀ r, score_of (lower q) r = 0) ∧ ∀ cat, ¬ recommends (_run cat q).
Proof.
  intros Hb. split; [intros r; by apply blank_score_zero|].
  intros cat. rewrite recommends_iff.
  intros (d & _ & Hpos). rewrite blank_score_zero in Hpos by done. lia.
Qed.

Lemma blank_query_witness :
  blank "   " = true
  ∧ (∀ r, score_of (lower "   ") r = 0)
  ∧ ∀ cat, ¬ recommends (_run cat "   ").
Proof.
  split; [reflexivity|]. apply (blank_query_matches_nothing "   ").
  reflexivity.
Defined.

(** ** The rules *)

(** X7: the confidence of a recommendation is "high" exactly when at least
    two of the three rules (description, name, type) add points to the
    recommended descriptor, and "medium" exactly when one rule does. *)
Theorem confidence_counts_rules (cat : list repo) (q : string) (res : result) :
  _run cat q = Ok (Recommendation res) →
  ∃ d,
    d ∈ cat
    ∧ recommended_repository res = d !! "name"
    ∧ description res = d !! "description"
    ∧ (confidence res = "high" ↔ 2 ≤ rules_fired (lower q) d)
    ∧ (confidence res = "medium" ↔ rules_fired (lower q) d = 1).
Proof.
  intros (top & rest & E & ->)%run_recommendation_inv.
  assert (top ∈ ranking cat q) as Hin by (rewrite E; left).
  apply ranking_elem_of in Hin as (d & Hd & Hpos & ->).
  exists d. split; [done|]. split; [done|]. split; [done|].
  destruct (score_of_rules_fired (lower q) d) as (H0 & H1 & H2).
  unfold result_of. cbn [confidence rec_score mk_recommendation].
  destruct (Nat.leb_spec 3 (score_of (lower q) d)); split; split;
    intros; try done; lia.
Qed.

Lemma confidence_rules_witness :
  let cat := DataRoutingCrew.repositories in
  let q := "search sales data" in
  ∃ res,
    _run cat q = Ok (Recommendation res)
    ∧ ∃ d,
        d ∈ cat
        ∧ recommended_repository res = d !! "name"
        ∧ description res = d !! "description"
        ∧ (confidence res = "high" ↔ 2 ≤ rules_fired (lower q) d)
        ∧ (confidence res = "medium" ↔ rules_fired (lower q) d = 1).
Proof.
  intros cat q. eexists. split; [vm_compute; reflexivity|].
  apply (confidence_counts_rules cat q). vm_compute. reflexivity.
Defined.

(** X8: a descriptor whose "tool_type" is absent, or lowercases to none of
    the four known tags, gets no type points whatever the query: it scores
    at most 3, and 3 only when both its description and its name match. *)
Theorem unknown_tag_scores_on_text_only (q : string) (r : repo) :
  lower (get_or r "tool_type" EmptyString) ∉ known_tags →
  score_of q r = desc_points q r + name_points q r
  ∧ score_of q r ≤ 3
  ∧ (3 ≤ score_of q r ↔ desc_points q r = 2 ∧ name_points q r = 1).
Proof.
  intros Hty. rewrite score_of_split, type_bonus_unknown by done.
  pose proof (desc_points_le q r). pose proof (name_points_le q r).
  unfold desc_points, name_points in *.
  repeat case_match; split; try split; try split; intros; lia.
Qed.

Lemma unknown_tag_witness :
  let r := descriptor (Some "Sales notes") (Some "Notes on sales") None None in
  (lower (get_or r "tool_type" EmptyString) ∉ known_tags)
  ∧ score_of "find sales" r
    = desc_points "find sales" r + name_points "find sales" r
  ∧ score_of "find sales" r ≤ 3
  ∧ (3 ≤ score_of "find sales" r
     ↔ desc_points "find sales" r = 2 ∧ name_points "find sales" r = 1).
Proof.
  intros r.
  assert (lower (get_or r "tool_type" EmptyString) ∉ known_tags) as H.
  { vm_compute. intros H. repeat (apply elem_of_cons in H as [H|H]; [done|]).
    by apply elem_of_nil in H. }
  split; [exact H|]. exact (unknown_tag_scores_on_text_only "find sales" r H).
Defined.

(** The test [any(keyword in text for keyword in query_lower.split())]
    holds exactly when a token of the query lies inside the text. *)
Lemma any_keyword_in_spec (ql text : string) :
  any_keyword_in ql text = true ↔ token_inside ql text.
Proof.
  unfold any_keyword_in, token_inside. rewrite existsb_exists. split.
  - intros (token & Hin & (pre & post & ->)%contains_spec).
    exists token, pre, post. split; [done|]. split; [|done].
    pose proof (split_nonempty ql) as Hne. rewrite Forall_forall in Hne.
    by apply Hne, list_elem_of_In.
  - intros (token & pre & post & Hin & _ & ->). exists token.
    split; [done|]. apply contains_spec. eauto.
Qed.

(** X9: the score of a descriptor exceeds its type points by 2 or 3 exactly
    when some token of the lowercased query occurs somewhere inside the
    lowercased description, as part of a word or not, and by 1 or 3 exactly
    when one occurs inside the lowercased name; the score is odd exactly in
    the latter case.  A catalog with a descriptor that has such a token in
    its description or its name gets a recommendation. *)
Theorem text_rules_are_substring_rules (q : string) (r : repo) :
  let ql := lower q in
  let in_desc :=
    token_inside ql (lower (get_or r "description" EmptyString)) in
  let in_name := token_inside ql (lower (get_or r "name" EmptyString)) in
  let points := type_bonus (lower (get_or r "tool_type" EmptyString)) ql in
  (in_desc ↔ score_of ql r = points + 2 ∨ score_of ql r = points + 3)
  ∧ (in_name ↔ score_of ql r = points + 1 ∨ score_of ql r = points + 3)
  ∧ (in_name ↔ Nat.odd (score_of ql r) = true)
  ∧ ∀ cat, r ∈ cat → in_desc ∨ in_name → recommends (_run cat q).
Proof.
  intros ql in_desc in_name points. subst ql in_desc in_name points.
  rewrite <- !any_keyword_in_spec.
  pose proof (score_of_split (lower q) r) as Hs.
  assert (Nat.odd (score_of (lower q) r) = Nat.odd (name_points (lower q) r)) as Hodd.
  { rewrite Hs. unfold type_bonus, desc_points.
    case_match; rewrite ?Nat.odd_add_mul_2; [|done].
    replace (2 + name_points (lower q) r) with (name_points (lower q) r + 2 * 1) by lia.
    by rewrite Nat.odd_add_mul_2. }
  rewrite Hodd. unfold desc_points, name_points in *.
  split; [|split; [|split]].
  - repeat case_match; split; intros; try done; lia.
  - repeat case_match; split; intros; try done; lia.
  - repeat case_match; split; intros; done.
  - intros cat Hin Hany. apply recommends_iff. exists r. split; [done|].
    destruct Hany as [H|H]; apply any_keyword_in_spec in H; rewrite H in Hs;
      repeat case_match; lia.
Qed.

Lemma substring_rules_witness :
  let q := "REV" in
  let r : repo := {[ "name" := "Revenue Analytics" ]} in
  let cat := [plain "Docs"; r] in
  score_of (lower q) r = 1 ∧ recommends (_run cat q).
Proof.
  intros q r cat.
  assert (token_inside (lower q) (lower (get_or r "name" EmptyString))) as H.
  { exists "rev", EmptyString, "enue analytics". split; [by left|]. done. }
  destruct (text_rules_are_substring_rules q r) as (_ & _ & _ & Hrun).
  split; [reflexivity|]. apply Hrun; [|by right].
  apply list_elem_of_In. right. by left.
Defined.

(** ** The catalog *)

(** X10: [_run] reads the keys "name", "description", "tool_name" and
    "tool_type" and no other: two catalogs whose descriptors agree, one by
    one, at these four keys give the same outcome for every query. *)
Theorem only_four_keys_are_read (cat1 cat2 : list repo) (q : string) :
  Forall2 same_fields cat1 cat2 → _run cat1 q = _run cat2 q.
Proof.
  intros H.
  assert (recommendations (lower q) cat1 = recommendations (lower q) cat2)
    as Hrec.
  { induction H as [|r1 r2 l1 l2 Hr _ IH]; simpl; [done|].
    rewrite (same_fields_score _ r1 r2 Hr), IH.
    by rewrite (same_fields_entry r1 r2 _ Hr). }
  assert (names_of cat1 = names_of cat2) as Hnames.
  { clear Hrec. induction H as [|r1 r2 l1 l2 Hr _ IH]; simpl; [done|].
    assert (r1 !! "name" = r2 !! "name") as Hn.
    { apply same_fields_lookup; [done|]. unfold read_keys. set_solver. }
    unfold getitem. by rewrite Hn, IH. }
  unfold _run. rewrite Hrec, Hnames. by destruct H.
Qed.

Lemma four_keys_witness :
  let r1 : repo := {[ "name" := "Docs"; "description" := "Manuals" ]} in
  let r2 : repo := <["owner" := "ops"]> r1 in
  Forall2 same_fields [r1] [r2]
  ∧ _run [r1] "find manuals" = _run [r2] "find manuals".
Proof.
  intros r1 r2.
  assert (Forall2 same_fields [r1] [r2]) as H.
  { repeat constructor. }
  split; [exact H|]. exact (only_four_keys_are_read [r1] [r2] _ H).
Defined.

(** X11: the letter case of the names, descriptions and tool types of the
    catalog, and its tool names, have no bearing on the scores: two catalogs
    that differ in these only have rankings with the same scores, rank by
    rank, hence the same best score, the same confidence and alternatives
    with the same scores. *)
Theorem catalog_case_is_ignored (cat1 cat2 : list repo) (q : string) :
  Forall2 same_lowered cat1 cat2 →
  rec_score <$> ranking cat1 q = rec_score <$> ranking cat2 q
  ∧ top_score cat1 q = top_score cat2 q
  ∧ (recommends (_run cat1 q) ↔ recommends (_run cat2 q))
  ∧ ∀ res1 res2,
      _run cat1 q = Ok (Recommendation res1) →
      _run cat2 q = Ok (Recommendation res2) →
      confidence res1 = confidence res2
      ∧ alt_score <$> alternatives res1 = alt_score <$> alternatives res2.
Proof.
  intros H.
  assert (rec_score <$> ranking cat1 q = rec_score <$> ranking cat2 q) as Hs.
  { unfold ranking. apply sort_by_score_scores.
    induction H as [|r1 r2 l1 l2 Hr _ IH]; simpl; [done|].
    rewrite (same_lowered_score _ r1 r2 Hr).
    destruct (0 <? score_of (lower q) r2); [|done].
    by rewrite !fmap_cons, IH. }
  split; [done|]. by apply scores_determine.
Qed.

Lemma catalog_case_witness :
  let cat1 := DataRoutingCrew.repositories in
  let cat2 : list repo :=
    [ {[ "name" := "PRODUCT SEARCH";
         "description" :=
           "SEARCH SERVICE FOR PRODUCT INFORMATION, INVENTORY, AND CATALOG DATA";
         "tool_type" := "Search" ]};
      {[ "name" := "Revenue analytics";
         "description" :=
           "Semantic View for Revenue Analysis, Sales Data, and Financial Metrics";
         "tool_name" := "view-2";
         "tool_type" := "ANALYST" ]};
      {[ "name" := "sql database";
         "description" := "direct sql access to database tables and views";
         "tool_name" := "sql_exec_tool";
         "tool_type" := "SQL" ]};
      {[ "name" := "Cortex Agent";
         "description" := "AI Agent For Complex Data Queries And Analysis";
         "tool_name" := "agent_2";
         "tool_type" := "Agent" ]} ] in
  let q := "search sales data" in
  Forall2 same_lowered cat1 cat2
  ∧ rec_score <$> ranking cat1 q = rec_score <$> ranking cat2 q
  ∧ top_score cat1 q = top_score cat2 q
  ∧ (recommends (_run cat1 q) ↔ recommends (_run cat2 q))
  ∧ ∀ res1 res2,
      _run cat1 q = Ok (Recommendation res1) →
      _run cat2 q = Ok (Recommendation res2) →
      confidence res1 = confidence res2
      ∧ alt_score <$> alternatives res1 = alt_score <$> alternatives res2.
Proof.
  intros cat1 cat2 q.
  assert (Forall2 same_lowered cat1 cat2) as H.
  { repeat constructor. }
  split; [exact H|]. exact (catalog_case_is_ignored cat1 cat2 q H).
Defined.

(** X12: the order of the catalog decides between descriptors of equal
    score only: two catalogs with the same descriptors in different orders
    have rankings with the same scores, rank by rank, hence the same best
    score, the same confidence and alternatives with the same scores. *)
Theorem catalog_order_breaks_ties_only (cat1 cat2 : list repo) (q : string) :
  cat1 ≡ₚ cat2 →
  ranking cat1 q ≡ₚ ranking cat2 q
  ∧ rec_score <$> ranking cat1 q = rec_score <$> ranking cat2 q
  ∧ top_score cat1 q = top_score cat2 q
  ∧ (recommends (_run cat1 q) ↔ recommends (_run cat2 q))
  ∧ ∀ res1 res2,
      _run cat1 q = Ok (Recommendation res1) →
      _run cat2 q = Ok (Recommendation res2) →
      confidence res1 = confidence res2
      ∧ alt_score <$> alternatives res1 = alt_score <$> alternatives res2.
Proof.
  intros H.
  assert (ranking cat1 q ≡ₚ ranking cat2 q) as Hp.
  { unfold ranking. by rewrite !sort_by_score_perm, !recommendations_spec, H. }
  assert (rec_score <$> ranking cat1 q = rec_score <$> ranking cat2 q) as Hs.
  { apply (StronglySorted_unique (flip le)).
    - eapply StronglySorted_fmap_impl; [|apply ranking_sorted]. by intros x y.
    - eapply StronglySorted_fmap_impl; [|apply ranking_sorted]. by intros x y.
    - by rewrite Hp. }
  split; [done|]. split; [done|]. by apply scores_determine.
Qed.

Lemma catalog_order_witness :
  let cat1 := DataRoutingCrew.repositories in
  let cat2 := reverse DataRoutingCrew.repositories in
  let q := "search sales data" in
  ranking cat1 q ≡ₚ ranking cat2 q
  ∧ rec_score <$> ranking cat1 q = rec_score <$> ranking cat2 q
  ∧ top_score cat1 q = top_score cat2 q
  ∧ (recommends (_run cat1 q) ↔ recommends (_run cat2 q))
  ∧ ∀ res1 res2,
      _run cat1 q = Ok (Recommendation res1) →
      _run cat2 q = Ok (Recommendation res2) →
      confidence res1 = confidence res2
      ∧ alt_score <$> alternatives res1 = alt_score <$> alternatives res2.
Proof.
  intros cat1 cat2 q. apply (catalog_order_breaks_ties_only cat1 cat2 q).
  symmetry. apply reverse_Permutation.
Defined.

(** X13: when the names of the catalog are pairwise distinct, so are the
    names a recommendation shows: the recommended repository and the
    alternatives are all different. *)
Theorem shown_names_are_distinct (cat : list repo) (q : string)
    (res : result) :
  NoDup ((λ d : repo, d !! "name") <$> cat) →
  _run cat q = Ok (Recommendation res) →
  NoDup (fst <$> output_ranking res).
Proof.
  intros Hnd (top & rest & E & ->)%run_recommendation_inv.
  rewrite output_ranking_result_of, <- E, <- fmap_take, <- list_fmap_compose.
  change (fst ∘ shown_of) with rec_repository. rewrite fmap_take.
  eapply sublist_NoDup; [by apply ranking_names_NoDup|apply sublist_take].
Qed.

Lemma shown_names_witness :
  let cat := DataRoutingCrew.repositories in
  let q := "search sales data" in
  ∃ res,
    _run cat q = Ok (Recommendation res)
    ∧ fst <$> output_ranking res
      = [Some "Product Search"; Some "SQL Database"; Some "Revenue Analytics"]
    ∧ NoDup (fst <$> output_ranking res).
Proof.
  intros cat q. eexists. split; [vm_compute; reflexivity|].
  split; [vm_compute; reflexivity|].
  apply (shown_names_are_distinct cat q).
  - apply (bool_decide_unpack _). by vm_compute.
  - vm_compute. reflexivity.
Defined.

(** X14: adding descriptors at the end of the catalog that score no more
    than the best score so far leaves the recommended repository, its tool,
    type, description and the confidence as they were. *)
Theorem appending_no_better_keeps_recommendation (cat more : list repo)
    (q : string) (res : result) (s : nat) :
  _run cat q = Ok (Recommendation res) →
  top_score cat q = Some s →
  Forall (λ r, score_of (lower q) r ≤ s) more →
  ∃ res',
    _run (cat ++ more) q = Ok (Recommendation res')
    ∧ recommended_repository res' = recommended_repository res
    ∧ DataRepositoryTool.tool_name res' = DataRepositoryTool.tool_name res
    ∧ tool_type res' = tool_type res
    ∧ description res' = description res
    ∧ confidence res' = confidence res.
Proof.
  intros Hrun Hs Hmore.
  assert (∃ d, d ∈ cat ∧ 0 < score_of (lower q) d) as (d0 & Hd0 & Hpos0).
  { apply recommends_iff. by exists res. }
  destruct (first_max_exists (lower q) cat) as (l1 & d & l2 & E & H1 & H2).
  { intros ->. by apply elem_of_nil in Hd0. }
  assert (score_of (lower q) d0 ≤ score_of (lower q) d) as Hle.
  { rewrite E in Hd0. rewrite Forall_forall in H1, H2.
    apply elem_of_app in Hd0 as [Hin|Hin]; [apply H1 in Hin; lia|].
    apply elem_of_cons in Hin as [->|Hin]; [done|by apply H2]. }
  destruct (ranking_first_max q l1 d l2) as [rest Hr]; [lia|done|done|].
  rewrite <- E in Hr.
  assert (s = score_of (lower q) d) as ->.
  { unfold top_score in Hs. rewrite Hr in Hs. by injection Hs. }
  rewrite (run_recommendation cat q _ rest Hr) in Hrun. injection Hrun as <-.
  destruct (ranking_first_max q l1 d (l2 ++ more)) as [rest' Hr'];
    [lia|done|by apply Forall_app|].
  assert (l1 ++ d :: l2 ++ more = cat ++ more) as Ecat.
  { rewrite E, <- app_assoc. done. }
  rewrite Ecat in Hr'.
  eexists. split; [by apply run_recommendation|done].
Qed.

Lemma appending_witness :
  let cat := take 2 DataRoutingCrew.repositories in
  let more := drop 2 DataRoutingCrew.repositories in
  let q := "search sales data" in
  ∃ res,
    _run cat q = Ok (Recommendation res)
    ∧ top_score cat q = Some 5
    ∧ ∃ res',
        _run (cat ++ more) q = Ok (Recommendation res')
        ∧ recommended_repository res' = recommended_repository res
        ∧ DataRepositoryTool.tool_name res' = DataRepositoryTool.tool_name res
        ∧ tool_type res' = tool_type res
        ∧ description res' = description res
        ∧ confidence res' = confidence res.
Proof.
  intros cat more q. eexists. split; [vm_compute; reflexivity|].
  split; [vm_compute; reflexivity|].
  apply (appending_no_better_keeps_recommendation cat more q _ 5).
  - vm_compute. reflexivity.
  - vm_compute. reflexivity.
  - repeat constructor; vm_compute; lia.
Defined.

(** ** The default catalog and the flow *)

(** A descriptor whose lowercased tag is one of the four gets the two
    points of the tag as soon as a trigger word of the tag occurs. *)
Lemma score_of_ge_bonus (ql : string) (d : repo) (tag : string)
    (words : list string) :
  lower (get_or d "tool_type" EmptyString) = tag →
  (tag, words) ∈ type_rules →
  any_word_in words ql = true →
  2 ≤ score_of ql d.
Proof.
  intros Hty Hrule Hw. rewrite score_of_split, Hty.
  assert (type_bonus tag ql = 2) as ->; [|lia].
  unfold type_rules in Hrule.
  repeat (apply elem_of_cons in Hrule as [[= -> ->]|Hrule]);
    [..|by apply elem_of_nil in Hrule];
    unfold type_bonus, bonuses_awarded, search_fires, analyst_fires,
      sql_fires, agent_fires, bonus_fires; rewrite Hw; reflexivity.
Qed.

(** X15: on the default catalog [_run] never raises: for every query it
    gives a recommendation, or the answer of no match with the query and the
    four names in catalog order. *)
Theorem default_catalog_never_raises (q : string) :
  let cat := DataRoutingCrew.repositories in
  recommends (_run cat q)
  ∨ _run cat q
    = Ok (NoMatchFound q ["Product Search"; "Revenue Analytics";
                          "SQL Database"; "Cortex Agent"]).
Proof.
  intros cat.
  destruct (run_cases cat q) as [[E _]|[(_ & _ & E)|(top & rest & _ & E)]].
  - discriminate E.
  - right. rewrite E. reflexivity.
  - left. by eexists.
Qed.

(** X16: on the default catalog every query that contains one of the
    trigger words of lines 93-99, in any letter case and even inside a
    longer word, gets a recommendation, with a best score of 2 or more. *)
Theorem default_catalog_trigger_words (q : string) :
  any_word_in trigger_words (lower q) = true →
  ∃ res s,
    _run DataRoutingCrew.repositories q = Ok (Recommendation res)
    ∧ top_score DataRoutingCrew.repositories q = Some s
    ∧ 2 ≤ s.
Proof.
  intros H.
  assert (∃ d, d ∈ DataRoutingCrew.repositories ∧ 2 ≤ score_of (lower q) d)
    as (d & Hd & H2).
  { unfold trigger_words, any_word_in in H.
    rewrite !existsb_app, !orb_true_iff in H.
    unfold DataRoutingCrew.repositories.
    destruct H as [H|[H|[H|H]]]; eexists.
    - split; [left|].
      by eapply (score_of_ge_bonus _ _ "search" search_words);
        [reflexivity|unfold type_rules; set_solver|exact H].
    - split; [right; left|].
      by eapply (score_of_ge_bonus _ _ "analyst" analyst_words);
        [reflexivity|unfold type_rules; set_solver|exact H].
    - split; [do 2 right; left|].
      by eapply (score_of_ge_bonus _ _ "sql" sql_words);
        [reflexivity|unfold type_rules; set_solver|exact H].
    - split; [do 3 right; left|].
      by eapply (score_of_ge_bonus _ _ "agent" agent_words);
        [reflexivity|unfold type_rules; set_solver|exact H]. }
  destruct (proj1 (ranking_nonempty DataRoutingCrew.repositories q))
    as (top & rest & E); [exists d; split; [done|lia]|].
  exists (result_of top rest), (rec_score top).
  split; [by apply run_recommendation|].
  split; [unfold top_score; by rewrite E|].
  pose proof (ranking_top_max _ q top rest E d Hd). lia.
Qed.

Lemma trigger_words_witness :
  any_word_in trigger_words (lower "Please HELP me") = true
  ∧ ∃ res s,
      _run DataRoutingCrew.repositories "Please HELP me"
      = Ok (Recommendation res)
      ∧ top_score DataRoutingCrew.repositories "Please HELP me" = Some s
      ∧ 2 ≤ s.
Proof.
  split; [reflexivity|].
  apply (default_catalog_trigger_words "Please HELP me"). reflexivity.
Defined.

(** X17: [receive_query] with a payload that is not empty and has no key
    "user_query" leaves the flow with the empty query, not the default one,
    and the other three fields as they were; for that query the selector
    gives no recommendation on any catalog. *)
Theorem payload_without_query (payload : gmap string string)
    (state : Main.DataQueryState) :
  payload ≠ ∅ →
  payload !! "user_query" = None →
  let state' := Main.receive_query (Some payload) state in
  Main.user_query state' = EmptyString
  ∧ Main.user_query state' ≠ Main.default_query
  ∧ Main.selected_repository state' = Main.selected_repository state
  ∧ Main.tool_name state' = Main.tool_name state
  ∧ Main.query_result state' = Main.query_result state
  ∧ ∀ cat, ¬ recommends (_run cat (Main.user_query state')).
Proof.
  intros Hne Hq. unfold Main.receive_query.
  rewrite bool_decide_eq_false_2 by done.
  unfold get_or. rewrite Hq. simpl.
  repeat (split; [done|]).
  intros cat. rewrite recommends_iff. intros (d & _ & Hpos).
  rewrite (blank_score_zero EmptyString d) in Hpos by reflexivity. lia.
Qed.

Lemma payload_witness :
  let payload : gmap string string := {[ "verbose" := "true" ]} in
  let state' := Main.receive_query (Some payload) Main.initial_state in
  Main.user_query state' = EmptyString
  ∧ Main.user_query state' ≠ Main.default_query
  ∧ Main.selected_repository state'
    = Main.selected_repository Main.initial_state
  ∧ Main.tool_name state' = Main.tool_name Main.initial_state
  ∧ Main.query_result state' = Main.query_result Main.initial_state
  ∧ ∀ cat, ¬ recommends (_run cat (Main.user_query state')).
Proof.
  intros payload.
  apply (payload_without_query payload Main.initial_state).
  - by apply (bool_decide_unpack _).
  - reflexivity.
Defined.
